(** * CombatSystem: the deterministic combat core of the boss fight

    A shallow embedding of [systems/CombatSystem.ts]: the configuration
    constants, the attack catalogue, the seeded generator and the engine
    class with its command methods, its [tick] and [calculateScore], which
    takes the reading of the clock as an argument.  The fixed-timestep loop
    of [scenes/CombatScene.ts], which drives the engine, follows it.

    Numbers.  Every TypeScript [number] is an IEEE double.
    - Frame counters, zones and the counters of parries, blocks and deaths
      start at 0 and move by 1: they hold small integers, on which double
      arithmetic is exact, and are [Z].
    - [bossHP] starts at the maximum given to the constructor, an
      integer-valued double of any size, and [damageDealt] follows it: they
      are [Z], and [dealDamageToBoss] rounds its difference and its sum to
      the nearest double ([round53]).
    - The generator multiplies a 31-bit state by 1103515245, which leaves
      the 53 bits of a double's significand; the product and the sum are
      therefore rounded to nearest-even ([round53]) before the [& 0x7fffffff]
      truncates them, exactly as the engine does at run time.
    - [bossStagger], the generator's output and the parry accuracy are
      fractional.  A finite double is the rational it denotes ([Q], in
      lowest terms), and every operation rounds its exact result to the
      nearest double, ties to even ([rnd]).  The exponent is not bounded:
      the values met here stay far inside the normal range.  A decimal
      literal denotes the double nearest to it.
    - Infinities, NaN and the sign of zero do not occur in the engine's own
      arithmetic and are left out, apart from the overflow of the
      generator's first product. *)

From Stdlib Require Import ZArith QArith Qround Qabs Qpower List String Bool Lia Lqa Sorted.
Import ListNotations.
Open Scope string_scope.
Open Scope Z_scope.

(** ** Double arithmetic on integers *)

Module JSNumber.

(** Nearest integer with a 53-bit significand, ties to even. *)
Definition round53 (x : Z) : Z :=
  let a := Z.abs x in
  if a <? 2 ^ 53 then x
  else
    let e := Z.log2 a - 52 in
    let q := a / 2 ^ e in
    let r := a mod 2 ^ e in
    let half := 2 ^ (e - 1) in
    let q' := if (half <? r) || ((r =? half) && Z.odd q) then q + 1 else q in
    Z.sgn x * (q' * 2 ^ e).

(** An integer-valued double, or [None] once the magnitude overflows to an
    infinity (2^1024 and beyond). *)
Definition to_double (x : Z) : option Z :=
  let r := round53 x in
  if Z.abs r <? 2 ^ 1024 then Some r else None.

Definition mul (x y : Z) : option Z := to_double (x * y).

Definition add (x : option Z) (y : Z) : option Z :=
  match x with
  | Some v => to_double (v + y)
  | None => None
  end.

(** ECMAScript ToInt32: modulo 2^32, read as a signed word; an infinity
    converts to 0. *)
Definition toInt32 (x : option Z) : Z :=
  match x with
  | None => 0
  | Some v =>
      let m := v mod 2 ^ 32 in
      if 2 ^ 31 <=? m then m - 2 ^ 32 else m
  end.

(** [x & mask] on a value that went through [toInt32]. *)
Definition bitand (x : option Z) (mask : Z) : Z := Z.land (toInt32 x) mask.

(** *** Fractional doubles *)

(** Nearest integer to a rational, ties to even. *)
Definition rne (q : Q) : Z :=
  let f := Qfloor q in
  match (q - inject_Z f ?= 1 # 2)%Q with
  | Lt => f
  | Gt => f + 1
  | Eq => if Z.even f then f else f + 1
  end.

(** The binary exponent of a positive rational: 2^e <= q < 2^(e+1). *)
Definition ilog2 (q : Q) : Z :=
  let e := Z.log2 (Qnum q) - Z.log2 (Zpos (Qden q)) in
  if Qle_bool (2 ^ e) q then e else e - 1.

(** Nearest double: 53 significant bits, ties to even. *)
Definition rnd (q : Q) : Q :=
  match Qnum q with
  | 0 => 0%Q
  | _ =>
      let e := ilog2 (Qabs q) in
      Qred (inject_Z (rne (q * 2 ^ (52 - e))) * 2 ^ (e - 52))
  end.

Definition fadd (x y : Q) : Q := rnd (x + y).
Definition fsub (x y : Q) : Q := rnd (x - y).
Definition fmul (x y : Q) : Q := rnd (x * y).
Definition fdiv (x y : Q) : Q := rnd (x / y).

(** [x < y], [x >= y] and [x > y] on finite doubles. *)
Definition flt (x y : Q) : bool := negb (Qle_bool y x).
Definition fge (x y : Q) : bool := Qle_bool y x.
Definition fgt (x y : Q) : bool := negb (Qle_bool x y).

(** [Math.max(0, x)] and [Math.floor(x)]. *)
Definition max0 (x : Q) : Q := if Qle_bool x 0 then 0%Q else x.
Definition floor (x : Q) : Z := Qfloor x.

End JSNumber.

(** ** The seeded generator *)

(** [createSeededRandom]: the closure's [state] variable is threaded
    explicitly; one call returns the new state and the value
    [state / 0x7fffffff]. *)
Definition rng_state (state : Z) : Z :=
  JSNumber.bitand (JSNumber.add (JSNumber.mul state 1103515245) 12345) 0x7fffffff.

Definition rng_value (state : Z) : Q :=
  JSNumber.fdiv (inject_Z state) (inject_Z 0x7fffffff).

Definition rng (state : Z) : Q * Z :=
  let state' := rng_state state in
  (rng_value state', state').

(** The state the closure holds after [n] calls. *)
Fixpoint rng_iter (n : nat) (seed : Z) : Z :=
  match n with
  | O => seed
  | S k => rng_state (rng_iter k seed)
  end.

(** The value returned by call number [n] (counting from 0). *)
Definition rng_nth (seed : Z) (n : nat) : Q := fst (rng (rng_iter n seed)).

(** The textbook generator the constants come from, computed without
    rounding; kept for comparison with [rng_state]. *)
Definition lcg_exact (state : Z) : Z := (state * 1103515245 + 12345) mod 2 ^ 31.

(** ** Configuration and catalogue *)

Inductive GameMode := STANDARD | PRACTICE.

Definition GameMode_eqb (a b : GameMode) : bool :=
  match a, b with
  | STANDARD, STANDARD | PRACTICE, PRACTICE => true
  | _, _ => false
  end.

Module COMBAT_CONFIG.
Definition TICKS_PER_SECOND : Q := 60.
Definition FRAME_TIME_MS : Q := JSNumber.fdiv 1000 60.
Definition PARRY_WINDOW_FRAMES : Z := 15.
Definition IMPACT_DELAY_FRAMES : Z := 25.
Definition BLOCK_WINDOW_FRAMES : Z := 30.
Definition BLOCK_STAGGER : Q := 5.
Definition PARRY_STAGGER : Q := 25.
Definition STAGGER_MAX : Q := 100.
Definition STAGGER_DECAY_PER_SECOND : Q := JSNumber.rnd 0.5.
Definition VULNERABILITY_DURATION_FRAMES : Z := 180.
Definition SAFE_ATTACK_DAMAGE : Z := 1.
Definition CRITICAL_DAMAGE : Z := 3.
Definition ZONE_LEFT : Z := 0.
Definition ZONE_CENTER : Z := 1.
Definition ZONE_RIGHT : Z := 2.
Definition INPUT_BUFFER_FRAMES : Z := 5.
End COMBAT_CONFIG.
Import COMBAT_CONFIG.

Definition AttackZone := Z.

Record Attack := mkAttack {
  id : string;
  zone : AttackZone;
  windupFrames : Z;
  activeFrames : Z;
  recoveryFrames : Z;
  damage : Z;
  isBlocking : bool
}.

(** The string union ['block' | 'attack' | 'parry']. *)
Module InputType.
Inductive t := block | attack | parry.
End InputType.

(** An absent optional field is [None]. *)
Record InputEvent := mkInputEvent {
  ev_frame : Z;
  ev_type : InputType.t;
  ev_zone : option AttackZone;
  ev_accuracy : option Q
}.

Definition RUST_WARDEN_ATTACKS : list Attack :=
  [ mkAttack "bash_left" ZONE_LEFT 120 40 30 1 true;
    mkAttack "bash_center" ZONE_CENTER 100 40 30 1 true;
    mkAttack "bash_right" ZONE_RIGHT 120 40 30 1 true;
    mkAttack "flail_sweep" ZONE_CENTER 90 45 60 1 false;
    mkAttack "desperation_slam" ZONE_CENTER 90 30 120 1 false ].

(** ** The engine's state *)

(** [enabledAttacks] is a [Set<string>]: the list holds its members in
    insertion order, without repetition. *)
Record CombatState := mkCombatState {
  currentFrame : Z;
  playerAlive : bool;
  playerShieldZone : AttackZone;
  playerAttacking : bool;
  playerAttackFrame : Z;
  bossHP : Z;
  bossMaxHP : Z;
  bossStagger : Q;
  bossVulnerable : bool;
  bossVulnerableFrame : Z;
  bossDesperation : bool;
  bossCurrentAttack : option Attack;
  bossAttackStartFrame : Z;
  bossAttackHitProcessed : bool;
  perfectParries : Z;
  blocksPerformed : Z;
  damageDealt : Z;
  deathCount : Z;
  runStartTime : Z;
  mode : GameMode;
  enabledAttacks : list string
}.

(** Field assignment, [this.state.f = v]. *)
Definition set_currentFrame (v : Z) (s : CombatState) : CombatState :=
  let 'mkCombatState _ x1 x2 x3 x4 x5 x6 x7 x8 x9 x10 x11 x12 x13 x14 x15 x16 x17 x18 x19 x20 := s in
  mkCombatState v x1 x2 x3 x4 x5 x6 x7 x8 x9 x10 x11 x12 x13 x14 x15 x16 x17 x18 x19 x20.

Definition set_playerAlive (v : bool) (s : CombatState) : CombatState :=
  let 'mkCombatState x0 _ x2 x3 x4 x5 x6 x7 x8 x9 x10 x11 x12 x13 x14 x15 x16 x17 x18 x19 x20 := s in
  mkCombatState x0 v x2 x3 x4 x5 x6 x7 x8 x9 x10 x11 x12 x13 x14 x15 x16 x17 x18 x19 x20.

Definition set_playerShieldZone (v : AttackZone) (s : CombatState) : CombatState :=
  let 'mkCombatState x0 x1 _ x3 x4 x5 x6 x7 x8 x9 x10 x11 x12 x13 x14 x15 x16 x17 x18 x19 x20 := s in
  mkCombatState x0 x1 v x3 x4 x5 x6 x7 x8 x9 x10 x11 x12 x13 x14 x15 x16 x17 x18 x19 x20.

Definition set_playerAttacking (v : bool) (s : CombatState) : CombatState :=
  let 'mkCombatState x0 x1 x2 _ x4 x5 x6 x7 x8 x9 x10 x11 x12 x13 x14 x15 x16 x17 x18 x19 x20 := s in
  mkCombatState x0 x1 x2 v x4 x5 x6 x7 x8 x9 x10 x11 x12 x13 x14 x15 x16 x17 x18 x19 x20.

Definition set_playerAttackFrame (v : Z) (s : CombatState) : CombatState :=
  let 'mkCombatState x0 x1 x2 x3 _ x5 x6 x7 x8 x9 x10 x11 x12 x13 x14 x15 x16 x17 x18 x19 x20 := s in
  mkCombatState x0 x1 x2 x3 v x5 x6 x7 x8 x9 x10 x11 x12 x13 x14 x15 x16 x17 x18 x19 x20.

Definition set_bossHP (v : Z) (s : CombatState) : CombatState :=
  let 'mkCombatState x0 x1 x2 x3 x4 _ x6 x7 x8 x9 x10 x11 x12 x13 x14 x15 x16 x17 x18 x19 x20 := s in
  mkCombatState x0 x1 x2 x3 x4 v x6 x7 x8 x9 x10 x11 x12 x13 x14 x15 x16 x17 x18 x19 x20.

Definition set_bossStagger (v : Q) (s : CombatState) : CombatState :=
  let 'mkCombatState x0 x1 x2 x3 x4 x5 x6 _ x8 x9 x10 x11 x12 x13 x14 x15 x16 x17 x18 x19 x20 := s in
  mkCombatState x0 x1 x2 x3 x4 x5 x6 v x8 x9 x10 x11 x12 x13 x14 x15 x16 x17 x18 x19 x20.

Definition set_bossVulnerable (v : bool) (s : CombatState) : CombatState :=
  let 'mkCombatState x0 x1 x2 x3 x4 x5 x6 x7 _ x9 x10 x11 x12 x13 x14 x15 x16 x17 x18 x19 x20 := s in
  mkCombatState x0 x1 x2 x3 x4 x5 x6 x7 v x9 x10 x11 x12 x13 x14 x15 x16 x17 x18 x19 x20.

Definition set_bossVulnerableFrame (v : Z) (s : CombatState) : CombatState :=
  let 'mkCombatState x0 x1 x2 x3 x4 x5 x6 x7 x8 _ x10 x11 x12 x13 x14 x15 x16 x17 x18 x19 x20 := s in
  mkCombatState x0 x1 x2 x3 x4 x5 x6 x7 x8 v x10 x11 x12 x13 x14 x15 x16 x17 x18 x19 x20.

Definition set_bossDesperation (v : bool) (s : CombatState) : CombatState :=
  let 'mkCombatState x0 x1 x2 x3 x4 x5 x6 x7 x8 x9 _ x11 x12 x13 x14 x15 x16 x17 x18 x19 x20 := s in
  mkCombatState x0 x1 x2 x3 x4 x5 x6 x7 x8 x9 v x11 x12 x13 x14 x15 x16 x17 x18 x19 x20.

Definition set_bossCurrentAttack (v : option Attack) (s : CombatState) : CombatState :=
  let 'mkCombatState x0 x1 x2 x3 x4 x5 x6 x7 x8 x9 x10 _ x12 x13 x14 x15 x16 x17 x18 x19 x20 := s in
  mkCombatState x0 x1 x2 x3 x4 x5 x6 x7 x8 x9 x10 v x12 x13 x14 x15 x16 x17 x18 x19 x20.

Definition set_bossAttackStartFrame (v : Z) (s : CombatState) : CombatState :=
  let 'mkCombatState x0 x1 x2 x3 x4 x5 x6 x7 x8 x9 x10 x11 _ x13 x14 x15 x16 x17 x18 x19 x20 := s in
  mkCombatState x0 x1 x2 x3 x4 x5 x6 x7 x8 x9 x10 x11 v x13 x14 x15 x16 x17 x18 x19 x20.

Definition set_bossAttackHitProcessed (v : bool) (s : CombatState) : CombatState :=
  let 'mkCombatState x0 x1 x2 x3 x4 x5 x6 x7 x8 x9 x10 x11 x12 _ x14 x15 x16 x17 x18 x19 x20 := s in
  mkCombatState x0 x1 x2 x3 x4 x5 x6 x7 x8 x9 x10 x11 x12 v x14 x15 x16 x17 x18 x19 x20.

Definition set_perfectParries (v : Z) (s : CombatState) : CombatState :=
  let 'mkCombatState x0 x1 x2 x3 x4 x5 x6 x7 x8 x9 x10 x11 x12 x13 _ x15 x16 x17 x18 x19 x20 := s in
  mkCombatState x0 x1 x2 x3 x4 x5 x6 x7 x8 x9 x10 x11 x12 x13 v x15 x16 x17 x18 x19 x20.

Definition set_blocksPerformed (v : Z) (s : CombatState) : CombatState :=
  let 'mkCombatState x0 x1 x2 x3 x4 x5 x6 x7 x8 x9 x10 x11 x12 x13 x14 _ x16 x17 x18 x19 x20 := s in
  mkCombatState x0 x1 x2 x3 x4 x5 x6 x7 x8 x9 x10 x11 x12 x13 x14 v x16 x17 x18 x19 x20.

Definition set_damageDealt (v : Z) (s : CombatState) : CombatState :=
  let 'mkCombatState x0 x1 x2 x3 x4 x5 x6 x7 x8 x9 x10 x11 x12 x13 x14 x15 _ x17 x18 x19 x20 := s in
  mkCombatState x0 x1 x2 x3 x4 x5 x6 x7 x8 x9 x10 x11 x12 x13 x14 x15 v x17 x18 x19 x20.

Definition set_deathCount (v : Z) (s : CombatState) : CombatState :=
  let 'mkCombatState x0 x1 x2 x3 x4 x5 x6 x7 x8 x9 x10 x11 x12 x13 x14 x15 x16 _ x18 x19 x20 := s in
  mkCombatState x0 x1 x2 x3 x4 x5 x6 x7 x8 x9 x10 x11 x12 x13 x14 x15 x16 v x18 x19 x20.

Definition set_enabledAttacks (v : list string) (s : CombatState) : CombatState :=
  let 'mkCombatState x0 x1 x2 x3 x4 x5 x6 x7 x8 x9 x10 x11 x12 x13 x14 x15 x16 x17 x18 x19 _ := s in
  mkCombatState x0 x1 x2 x3 x4 x5 x6 x7 x8 x9 x10 x11 x12 x13 x14 x15 x16 x17 x18 x19 v.

Record CombatSystem := mkCombatSystem {
  state : CombatState;
  inputLog : list InputEvent;
  _runSeed : Z;
  (** the [state] variable captured by the closure [this.rng] *)
  rngState : Z;
  forcedAttackQueue : list string
}.

(** The optional callbacks [onBlock] and [onParry] are left unset: the
    engine only calls them, and their absence is the class's default. *)

Definition upd (f : CombatState -> CombatState) (this : CombatSystem) : CombatSystem :=
  mkCombatSystem (f (state this)) (inputLog this) (_runSeed this)
    (rngState this) (forcedAttackQueue this).

Definition set_inputLog (l : list InputEvent) (this : CombatSystem) : CombatSystem :=
  mkCombatSystem (state this) l (_runSeed this) (rngState this) (forcedAttackQueue this).

Definition set_rngState (st : Z) (this : CombatSystem) : CombatSystem :=
  mkCombatSystem (state this) (inputLog this) (_runSeed this) st (forcedAttackQueue this).

Definition set_forcedAttackQueue (q : list string) (this : CombatSystem) : CombatSystem :=
  mkCombatSystem (state this) (inputLog this) (_runSeed this) (rngState this) q.

Definition push (ev : InputEvent) (this : CombatSystem) : CombatSystem :=
  set_inputLog (inputLog this ++ [ev]) this.

(** [Set.prototype.has], [add] and [delete]. *)
Definition set_has (x : string) (s : list string) : bool := existsb (String.eqb x) s.

Definition set_add (x : string) (s : list string) : list string :=
  if set_has x s then s else s ++ [x].

Definition set_delete (x : string) (s : list string) : list string :=
  filter (fun y => negb (String.eqb x y)) s.

(** [a[i]] for a computed index: [None] is [undefined]. *)
Definition index {A : Type} (a : list A) (i : Z) : option A :=
  if i <? 0 then None else nth_error a (Z.to_nat i).

Definition truthy {A : Type} (o : option A) : bool :=
  match o with Some _ => true | None => false end.

(** ** Construction and queries *)

(** [now] is the reading of [Date.now()] taken by the constructor. *)
Definition constructor (now : Z) (seed : Z) (bossMaxHP : Z) (mode : GameMode)
  : CombatSystem :=
  let enabledAttacks := fold_left (fun s a => set_add (id a) s) RUST_WARDEN_ATTACKS [] in
  mkCombatSystem
    (mkCombatState 0 true ZONE_CENTER false 0 bossMaxHP bossMaxHP 0%Q false 0 false
       None 0 false 0 0 0 0 now mode enabledAttacks)
    [] seed seed [].

(** How an evaluation of [new CombatSystem(...)] completes. *)
Inductive completion (A : Type) : Type :=
| Normal (a : A)
| Throw (message : string).
Arguments Normal {A} a.
Arguments Throw {A} message.

(** The constructor's body holds no [throw] and calls nothing that throws. *)
Definition new_CombatSystem (now seed bossMaxHP : Z) (mode : GameMode)
  : completion CombatSystem :=
  Normal (constructor now seed bossMaxHP mode).

(** The spread copies every field; the copy and the live state share the
    [enabledAttacks] set. *)
Definition getState (this : CombatSystem) : CombatState := state this.

Definition getInputLog (this : CombatSystem) : list InputEvent := inputLog this.

Definition getRunSeed (this : CombatSystem) : Z := _runSeed this.

Definition isBossDefeated (this : CombatSystem) : bool := bossHP (state this) <=? 0.

Definition isRunOver (this : CombatSystem) : bool :=
  if GameMode_eqb (mode (state this)) PRACTICE then isBossDefeated this
  else negb (playerAlive (state this)) || isBossDefeated this.

(** ** Private transitions *)

Definition dealDamageToBoss (damage : Z) (this : CombatSystem) : CombatSystem :=
  let this :=
    upd (fun s => set_bossHP (JSNumber.round53 (bossHP s - damage)) s) this in
  upd (fun s => set_damageDealt (JSNumber.round53 (damageDealt s + damage)) s) this.

Definition triggerVulnerability (this : CombatSystem) : CombatSystem :=
  let this := upd (set_bossVulnerable true) this in
  let this := upd (fun s => set_bossVulnerableFrame (currentFrame s) s) this in
  let this := upd (set_bossStagger 0%Q) this in
  upd (set_bossCurrentAttack None) this.

Definition handleParry (_attack : Attack) (accuracy : Q) (this : CombatSystem)
  : CombatSystem :=
  let this := upd (fun s => set_perfectParries (perfectParries s + 1) s) this in
  let multiplier := if JSNumber.fgt accuracy (JSNumber.rnd 0.9) then 1.5%Q else 1.0%Q in
  let this := upd (fun s => set_bossStagger
                     (JSNumber.fadd (bossStagger s) (JSNumber.fmul PARRY_STAGGER multiplier)) s)
                this in
  let this := if JSNumber.fge (bossStagger (state this)) STAGGER_MAX
              then triggerVulnerability this else this in
  if bossDesperation (state this) then dealDamageToBoss CRITICAL_DAMAGE this else this.

Definition handleBlock (this : CombatSystem) : CombatSystem :=
  let this := upd (fun s => set_blocksPerformed (blocksPerformed s + 1) s) this in
  let this := upd (fun s => set_bossStagger (JSNumber.fadd (bossStagger s) BLOCK_STAGGER) s)
                this in
  if JSNumber.fge (bossStagger (state this)) STAGGER_MAX
  then triggerVulnerability this else this.

Definition handlePlayerDeath (this : CombatSystem) : CombatSystem :=
  let this := upd (fun s => set_deathCount (deathCount s + 1) s) this in
  if GameMode_eqb (mode (state this)) PRACTICE then this
  else upd (set_playerAlive false) this.

Definition executeAttack (attack : option Attack) (this : CombatSystem) : CombatSystem :=
  let this := upd (set_bossCurrentAttack attack) this in
  let this := upd (fun s => set_bossAttackStartFrame (currentFrame s) s) this in
  upd (set_bossAttackHitProcessed false) this.

(** [this.rng()]: the value, and the engine with the closure advanced. *)
Definition call_rng (this : CombatSystem) : Q * CombatSystem :=
  let r := rng (rngState this) in (fst r, set_rngState (snd r) this).

Definition startBossAttack (this : CombatSystem) : CombatSystem :=
  let availableAttacks :=
    filter (fun a => GameMode_eqb (mode (state this)) STANDARD
                     || set_has (id a) (enabledAttacks (state this)))
           RUST_WARDEN_ATTACKS in
  if (List.length availableAttacks =? 0)%nat then this
  else
    let r := call_rng this in
    let v := fst r in
    let this := snd r in
    let attackIndex :=
      JSNumber.floor (JSNumber.fmul v (inject_Z (Z.of_nat (List.length availableAttacks)))) in
    executeAttack (index availableAttacks attackIndex) this.

Definition attackChance : Q := JSNumber.rnd 0.015.

(** The tail of [processBossAI]: the per-tick roll. *)
Definition rollAttack (this : CombatSystem) : CombatSystem :=
  let r := call_rng this in
  let v := fst r in
  let this := snd r in
  if JSNumber.flt v attackChance then startBossAttack this else this.

Definition processBossAI (this : CombatSystem) : CombatSystem :=
  if truthy (bossCurrentAttack (state this)) || bossVulnerable (state this) then this
  else
    match forcedAttackQueue this with
    | forcedId :: rest =>
        let this := set_forcedAttackQueue rest this in
        match find (fun a => String.eqb (id a) forcedId) RUST_WARDEN_ATTACKS with
        | Some attack => executeAttack (Some attack) this
        | None => rollAttack this
        end
    | [] => rollAttack this
    end.

Definition processAttackCollision (this : CombatSystem) : CombatSystem :=
  match bossCurrentAttack (state this) with
  | None => this
  | Some attack =>
      let framesSinceStart :=
        currentFrame (state this) - bossAttackStartFrame (state this) in
      let totalFrames := windupFrames attack + activeFrames attack + recoveryFrames attack in
      let this :=
        if negb (bossAttackHitProcessed (state this)) then
          let attackFrame := framesSinceStart - windupFrames attack in
          if attackFrame =? IMPACT_DELAY_FRAMES then
            let blocking := playerShieldZone (state this) =? zone attack in
            let this := if blocking && isBlocking attack
                        then handleBlock this else handlePlayerDeath this in
            upd (set_bossAttackHitProcessed true) this
          else this
        else this in
      if totalFrames <=? framesSinceStart
      then upd (set_bossCurrentAttack None) this else this
  end.

Definition processVulnerability (this : CombatSystem) : CombatSystem :=
  if negb (bossVulnerable (state this)) then this
  else
    let framesInVulnerability :=
      currentFrame (state this) - bossVulnerableFrame (state this) in
    if VULNERABILITY_DURATION_FRAMES <=? framesInVulnerability then
      let this := upd (set_bossVulnerable false) this in
      upd (set_bossDesperation false) this
    else this.

Definition processPlayerAttack (this : CombatSystem) : CombatSystem :=
  if negb (playerAttacking (state this)) then this
  else
    let framesSinceAttack :=
      currentFrame (state this) - playerAttackFrame (state this) in
    let this :=
      if framesSinceAttack =? 10 then
        if bossVulnerable (state this)
        then dealDamageToBoss SAFE_ATTACK_DAMAGE this else this
      else this in
    if 20 <=? framesSinceAttack then upd (set_playerAttacking false) this else this.

Definition decayStagger (this : CombatSystem) : CombatSystem :=
  if negb (bossVulnerable (state this)) then
    upd (fun s => set_bossStagger
           (JSNumber.max0
              (JSNumber.fsub (bossStagger s)
                 (JSNumber.fdiv STAGGER_DECAY_PER_SECOND TICKS_PER_SECOND))) s) this
  else this.

(** ** The public methods *)

Definition setPracticeAttack (attackId : string) (enabled : bool) (this : CombatSystem)
  : CombatSystem :=
  if negb (GameMode_eqb (mode (state this)) PRACTICE) then this
  else if enabled
       then upd (fun s => set_enabledAttacks (set_add attackId (enabledAttacks s)) s) this
       else upd (fun s => set_enabledAttacks (set_delete attackId (enabledAttacks s)) s) this.

Definition forceAttack (attackId : string) (this : CombatSystem) : CombatSystem :=
  if negb (GameMode_eqb (mode (state this)) PRACTICE) then this
  else set_forcedAttackQueue (forcedAttackQueue this ++ [attackId]) this.

Definition moveShield (zone : AttackZone) (this : CombatSystem) : CombatSystem :=
  if negb (playerAlive (state this)) then this
  else
    let this := upd (set_playerShieldZone zone) this in
    push (mkInputEvent (currentFrame (state this)) InputType.block (Some zone) None) this.

Definition earlyWindow : Z := 45.

Definition attemptParry (zone0 : AttackZone) (accuracy : Q) (this : CombatSystem)
  : bool * CombatSystem :=
  if negb (playerAlive (state this)) then (false, this)
  else
    let this :=
      push (mkInputEvent (currentFrame (state this)) InputType.parry (Some zone0) (Some accuracy)) this in
    match bossCurrentAttack (state this) with
    | None => (false, this)
    | Some attack =>
        if bossAttackHitProcessed (state this) then (false, this)
        else
          let framesSinceStart :=
            currentFrame (state this) - bossAttackStartFrame (state this) in
          if (windupFrames attack - earlyWindow <=? framesSinceStart)
             && (framesSinceStart <? windupFrames attack + activeFrames attack)
          then
            if zone0 =? zone attack then
              let this := handleParry attack accuracy this in
              let this := upd (set_bossAttackHitProcessed true) this in
              (true, this)
            else (false, this)
          else (false, this)
    end.

Definition playerAttack (this : CombatSystem) : CombatSystem :=
  if negb (playerAlive (state this)) || playerAttacking (state this) then this
  else if negb (bossVulnerable (state this)) then this
  else
    let this := upd (set_playerAttacking true) this in
    let this := upd (fun s => set_playerAttackFrame (currentFrame s) s) this in
    push (mkInputEvent (currentFrame (state this)) InputType.attack None None) this.

Definition tick (this : CombatSystem) : CombatSystem :=
  if negb (playerAlive (state this)) then this
  else
    let this := upd (fun s => set_currentFrame (currentFrame s + 1) s) this in
    let this := processBossAI this in
    let this := processAttackCollision this in
    let this := processPlayerAttack this in
    let this := decayStagger this in
    processVulnerability this.

(** ** Drivers *)

(** One call made by the host on the engine. *)
Inductive Call :=
| Tick
| MoveShield (zone : AttackZone)
| AttemptParry (zone : AttackZone) (accuracy : Q)
| PlayerAttack
| SetPracticeAttack (attackId : string) (enabled : bool)
| ForceAttack (attackId : string).

Definition step (this : CombatSystem) (c : Call) : CombatSystem :=
  match c with
  | Tick => tick this
  | MoveShield z => moveShield z this
  | AttemptParry z acc => snd (attemptParry z acc this)
  | PlayerAttack => playerAttack this
  | SetPracticeAttack a en => setPracticeAttack a en this
  | ForceAttack a => forceAttack a this
  end.

Definition run (this : CombatSystem) (calls : list Call) : CombatSystem :=
  fold_left step calls this.

Fixpoint ticks (n : nat) (this : CombatSystem) : CombatSystem :=
  match n with
  | O => this
  | S k => ticks k (tick this)
  end.

(** The engines a host can hold: a fresh one, or one more call on such. *)
Inductive reachable : CombatSystem -> Prop :=
| reachable_new now seed bossMaxHP mode :
    reachable (constructor now seed bossMaxHP mode)
| reachable_step this c :
    reachable this -> reachable (step this c).

(** ** Predicates and views of the statements *)

Definition vulnerable_excludes_attack (s : CombatState) : Prop :=
  bossVulnerable s = true -> bossCurrentAttack s = None.

(** The hit points balance as long as the sum and the difference that
    [dealDamageToBoss] computes have been exact. *)
Definition hp_balance (s : CombatState) : Prop :=
  0 <= damageDealt s
  /\ (bossMaxHP s < 2 ^ 53 -> damageDealt s < 2 ^ 53 ->
      - 2 ^ 53 < bossMaxHP s - damageDealt s ->
      bossHP s + damageDealt s = bossMaxHP s).

Definition stagger_in_range (s : CombatState) : Prop :=
  (0 <= bossStagger s /\ bossStagger s <= STAGGER_MAX)%Q.

(** The engine never assigns [runStartTime] after construction; this
    assignment only serves to compare two engines built at different
    times. *)
Definition set_runStartTime (v : Z) (s : CombatState) : CombatState :=
  let 'mkCombatState x0 x1 x2 x3 x4 x5 x6 x7 x8 x9 x10 x11 x12 x13 x14 x15 x16 x17 _ x19 x20 := s in
  mkCombatState x0 x1 x2 x3 x4 x5 x6 x7 x8 x9 x10 x11 x12 x13 x14 x15 x16 x17 v x19 x20.

Definition at_time (t : Z) (this : CombatSystem) : CombatSystem :=
  upd (set_runStartTime t) this.

(** The fields the impact resolution reads and writes. *)
Definition impact_view (s : CombatState) :=
  (currentFrame s, playerAlive s, playerShieldZone s, bossCurrentAttack s,
   bossAttackStartFrame s, bossAttackHitProcessed s, blocksPerformed s,
   deathCount s, mode s).

(** An attack in flight comes from the catalogue, and while its impact is
    pending it is less than [slack] frames past the last frame before its
    impact frame. *)
Definition pending_impact_within (slack : Z) (s : CombatState) : Prop :=
  forall a, bossCurrentAttack s = Some a ->
    In a RUST_WARDEN_ATTACKS
    /\ (bossAttackHitProcessed s = false ->
        currentFrame s - bossAttackStartFrame s
          < windupFrames a + IMPACT_DELAY_FRAMES + slack).

(** ** Sample runs *)

(** A practice round: the queued [bash_center] starts on the first tick,
    is parried 59 frames in, and runs out 170 frames after its start. *)
Definition parry_round : list Call :=
  [ForceAttack "bash_center"] ++ repeat Tick 60
    ++ [AttemptParry ZONE_CENTER 1] ++ repeat Tick 111.

Definition parried_engine : CombatSystem :=
  run (constructor 0 42 10 PRACTICE) parry_round.

(** Three accurate parries fill the stagger meter. *)
Definition vulnerable_engine : CombatSystem :=
  run (constructor 0 42 10 PRACTICE)
    (parry_round ++ parry_round
       ++ [ForceAttack "bash_center"] ++ repeat Tick 60
       ++ [AttemptParry ZONE_CENTER 1]).

(** A strike on the vulnerable boss lands ten frames later. *)
Definition wounded_engine : CombatSystem :=
  run vulnerable_engine ([PlayerAttack] ++ repeat Tick 10).

Definition bash_center : Attack := mkAttack "bash_center" ZONE_CENTER 100 40 30 1 true.

Definition fresh_engine : CombatSystem := constructor 0 0 10 STANDARD.

(** A practice engine with [bash_center] in flight for [n] frames. *)
Definition engaged_engine (n : nat) : CombatSystem :=
  run (constructor 0 42 10 PRACTICE) (ForceAttack "bash_center" :: repeat Tick (S n)).

(** With seed 0 the boss opens with [flail_sweep] on the first frame, and
    its impact on frame 116 kills the player, whose shield cannot block
    it. *)
Definition dead_engine : CombatSystem := ticks 116 (constructor 0 0 10 STANDARD).

(** ** Further predicates on the state *)

(** In standard mode the death counter mirrors [playerAlive]; in practice
    mode the player is alive. *)
Definition deaths_match_mode (s : CombatState) : Prop :=
  match mode s with
  | PRACTICE => playerAlive s = true
  | STANDARD => deathCount s = if playerAlive s then 0 else 1
  end.

(** An attack in flight comes from the catalogue and is at most [slack]
    frames past its last frame. *)
Definition attack_within (slack : Z) (s : CombatState) : Prop :=
  forall a, bossCurrentAttack s = Some a ->
    In a RUST_WARDEN_ATTACKS
    /\ 0 <= currentFrame s - bossAttackStartFrame s
       < windupFrames a + activeFrames a + recoveryFrames a + slack.

(** A vulnerable boss has no attack in flight, an empty stagger meter, and
    is at most [slack] frames past the end of its vulnerability. *)
Definition vulnerable_within (slack : Z) (s : CombatState) : Prop :=
  bossVulnerable s = true ->
    bossCurrentAttack s = None
    /\ bossStagger s = 0%Q
    /\ 0 <= currentFrame s - bossVulnerableFrame s
       < VULNERABILITY_DURATION_FRAMES + slack.

(** A strike in progress is at most [slack] frames past its twentieth
    frame. *)
Definition strike_within (slack : Z) (s : CombatState) : Prop :=
  playerAttacking s = true ->
    0 <= currentFrame s - playerAttackFrame s < 20 + slack.

(** The counters of a run and the boss's hit points. *)
Definition counters (s : CombatState) : Z * Z * Z * Z * Z :=
  (perfectParries s, blocksPerformed s, deathCount s, damageDealt s, bossHP s).

(** The frames stamped on the log never go back and lie between 0 and the
    current frame. *)
Definition log_in_order (this : CombatSystem) : Prop :=
  StronglySorted Z.le (map ev_frame (inputLog this))
  /\ Forall (fun f => 0 <= f <= currentFrame (state this))
       (map ev_frame (inputLog this))
  /\ 0 <= currentFrame (state this).

(** The engine [k] frames later, everything else as it is. *)
Definition advance (k : Z) (this : CombatSystem) : CombatSystem :=
  upd (fun s => set_currentFrame (currentFrame s + k) s) this.

(** ** Scoring *)

(** [Math.round]: the nearest integer, a half going up. *)
Definition Math_round (x : Q) : Z := Qfloor (x + (1 # 2)).

(** [calculateScore(baseBossXP)]; [now] is the reading of [Date.now()]
    taken by the call. *)
Definition calculateScore (now : Z) (baseBossXP : Z) (this : CombatSystem) : Z :=
  let secondsRemaining :=
    JSNumber.max0
      (JSNumber.fsub 300
         (JSNumber.fdiv
            (JSNumber.fsub (inject_Z now) (inject_Z (runStartTime (state this))))
            1000)) in
  let damageTaken : Q := if playerAlive (state this) then 0%Q else 1%Q in
  if GameMode_eqb (mode (state this)) PRACTICE then 0
  else
    Math_round
      (JSNumber.fsub
         (JSNumber.fadd
            (JSNumber.fadd (inject_Z baseBossXP)
               (JSNumber.fmul (inject_Z (perfectParries (state this))) 50))
            (JSNumber.fmul secondsRemaining 10))
         (JSNumber.fmul damageTaken 20)).

(** ** The host's fixed-timestep loop *)

(** The [while] loop of [CombatScene.update]: one tick per
    [FRAME_TIME_MS] held by the accumulator.  [fuel] bounds the number of
    iterations; [None] means it ran out. *)
Fixpoint drain (fuel : nat) (accumulator : Q) (combat : CombatSystem)
  : option (Q * CombatSystem) :=
  match fuel with
  | O => None
  | S fuel' =>
      if JSNumber.fge accumulator FRAME_TIME_MS
      then drain fuel' (JSNumber.fsub accumulator FRAME_TIME_MS) (tick combat)
      else Some (accumulator, combat)
  end.

(** What [CombatScene.update] reads and writes of the scene, its drawing
    left out. *)
Record SceneClock := mkSceneClock {
  combat : CombatSystem;
  accumulator : Q;
  tutorialActive : bool;
  gameOverHandled : bool
}.

(** [update(_time, delta)]. *)
Definition update (fuel : nat) (delta : Q) (scene : SceneClock) : option SceneClock :=
  if tutorialActive scene then Some scene
  else if isRunOver (combat scene) then
    Some (mkSceneClock (combat scene) (accumulator scene) (tutorialActive scene) true)
  else
    match drain fuel (JSNumber.fadd (accumulator scene) delta) (combat scene) with
    | Some (acc, c) =>
        Some (mkSceneClock c acc (tutorialActive scene) (gameOverHandled scene))
    | None => None
    end.

(** What a tick reads and writes of a vulnerability in progress. *)
Definition vulnerable_view (s : CombatState) :=
  (playerAlive s, bossVulnerable s, bossVulnerableFrame s, currentFrame s,
   bossCurrentAttack s).

(** ** More sample runs *)

Definition flail_sweep : Attack := mkAttack "flail_sweep" ZONE_CENTER 90 45 60 1 false.

(** A practice engine one tick before the impact of a forced
    [flail_sweep], which no shield blocks. *)
Definition threatened_engine : CombatSystem :=
  run (constructor 0 42 10 PRACTICE) (ForceAttack "flail_sweep" :: repeat Tick 115).

(** The same engine after the hit: in practice the player survives it. *)
Definition hit_engine : CombatSystem :=
  run (constructor 0 42 10 PRACTICE) (ForceAttack "flail_sweep" :: repeat Tick 116).

(** A scene that has not ticked yet. *)
Definition sample_scene : SceneClock := mkSceneClock fresh_engine 0 false false.

(** The same strike on a boss whose hit points pass 2^53: the script of
    [vulnerable_engine], then [playerAttack] and ten ticks. *)
Definition overflowing_engine : CombatSystem :=
  run (constructor 0 42 (2 ^ 53 + 2) PRACTICE)
    (parry_round ++ parry_round
       ++ [ForceAttack "bash_center"] ++ repeat Tick 60
       ++ [AttemptParry ZONE_CENTER 1]
       ++ [PlayerAttack] ++ repeat Tick 10).

(** The vulnerable boss nine ticks into a strike, one tick before it
    lands. *)
Definition striking_engine : CombatSystem :=
  run vulnerable_engine (PlayerAttack :: repeat Tick 9).

(** ** Facts about the generator's integer arithmetic *)

Section Rounding.

Import JSNumber.

Lemma round53_small x : Z.abs x < 2 ^ 53 -> round53 x = x.
Proof.
  intros H. unfold round53.
  destruct (Z.ltb_spec (Z.abs x) (2 ^ 53)); [reflexivity | lia].
Qed.

(** Up to 2^53 in magnitude every integer is a double. *)
Lemma round53_exact x : Z.abs x <= 2 ^ 53 -> round53 x = x.
Proof.
  intros H. destruct (Z.eq_dec (Z.abs x) (2 ^ 53)) as [He | Hne].
  - assert (Hx : x = 2 ^ 53 \/ x = - 2 ^ 53) by lia.
    destruct Hx as [-> | ->]; vm_compute; reflexivity.
  - apply round53_small. lia.
Qed.

(** Rounding keeps the sign. *)
Lemma round53_magnitude x : exists m, 0 <= m /\ round53 x = Z.sgn x * m.
Proof.
  unfold round53. destruct (Z.abs x <? 2 ^ 53).
  - exists (Z.abs x). split; lia.
  - cbv zeta. eexists. split; [| reflexivity].
    set (e := Z.log2 (Z.abs x) - 52).
    assert (Hp : 0 <= 2 ^ e) by (apply Z.pow_nonneg; lia).
    assert (Hq : 0 <= Z.abs x / 2 ^ e).
    { destruct (Z.eq_dec (2 ^ e) 0) as [-> | Hne].
      - rewrite Z.div_0_r. lia.
      - apply Z.div_pos; lia. }
    apply Z.mul_nonneg_nonneg; [| exact Hp].
    match goal with |- context [if ?c then _ else _] => destruct c end; lia.
Qed.

Lemma round53_nonneg x : 0 <= x -> 0 <= round53 x.
Proof. intros H. destruct (round53_magnitude x) as (m & Hm & ->). nia. Qed.

Lemma round53_nonpos x : x <= 0 -> round53 x <= 0.
Proof. intros H. destruct (round53_magnitude x) as (m & Hm & ->). nia. Qed.

(** A rounded value keeps the magnitude class of its argument. *)
Lemma round53_large x : 2 ^ 53 <= Z.abs x -> 2 ^ 53 <= Z.abs (round53 x).
Proof.
  intros H. unfold round53.
  destruct (Z.ltb_spec (Z.abs x) (2 ^ 53)) as [Hlt | _]; [lia |].
  set (a := Z.abs x) in *.
  assert (Ha : 0 < a) by lia.
  assert (He : 1 <= Z.log2 a - 52).
  { assert (53 <= Z.log2 a); [| lia].
    apply Z.log2_le_pow2; lia. }
  set (e := Z.log2 a - 52) in *.
  destruct (Z.log2_spec a Ha) as [Hlo _].
  replace (Z.log2 a) with (52 + e) in Hlo by (unfold e; lia).
  rewrite Z.pow_add_r in Hlo by lia.
  assert (Hpe : 0 < 2 ^ e) by (apply Z.pow_pos_nonneg; lia).
  assert (Hq : 2 ^ 52 <= a / 2 ^ e).
  { apply Z.div_le_lower_bound; [exact Hpe | lia]. }
  set (q := a / 2 ^ e) in *.
  match goal with
  | |- context [if ?c then _ else _] => set (q' := if c then q + 1 else q)
  end.
  assert (Hq' : q <= q').
  { unfold q'. match goal with |- context [if ?c then _ else _] => destruct c end; lia. }
  assert (Hp2 : 2 <= 2 ^ e).
  { change 2 with (2 ^ 1) at 1. apply Z.pow_le_mono_r; lia. }
  assert (Hbig : 2 ^ 53 <= q' * 2 ^ e).
  { change (2 ^ 53) with (2 ^ 52 * 2). apply Z.mul_le_mono_nonneg; lia. }
  destruct (Z.sgn_spec x) as [[_ ->] | [[Hx _] | [_ ->]]]; unfold a in *; lia.
Qed.

(** Masking the signed word with [0x7fffffff] keeps the low 31 bits. *)
Lemma bitand_mask_mod v : bitand (Some v) 0x7fffffff = v mod 2 ^ 31.
Proof.
  unfold bitand, toInt32.
  change 0x7fffffff with (Z.ones 31).
  rewrite Z.land_ones by lia.
  change (2 ^ 32) with 4294967296. change (2 ^ 31) with 2147483648.
  destruct (Z.leb_spec 2147483648 (v mod 4294967296));
    Z.div_mod_to_equations; lia.
Qed.

Lemma rng_state_bounds s : 0 <= rng_state s < 2 ^ 31.
Proof.
  unfold rng_state.
  destruct (add (mul s 1103515245) 12345) as [v |].
  - rewrite bitand_mask_mod. apply Z.mod_pos_bound. lia.
  - cbv. split; congruence.
Qed.

(** The all-ones state is out of the generator's reach: a sum that ends in
    thirty-one 1 bits is odd, so it was computed without rounding, and the
    only residue that maps there (230538014 modulo 2^31) makes the product
    exceed 2^53. *)
Lemma rng_state_not_ones s : rng_state s <> 0x7fffffff.
Proof.
  unfold rng_state. intros Heq.
  destruct (add (mul s 1103515245) 12345) as [v |] eqn:Hadd;
    [| cbv in Heq; discriminate].
  rewrite bitand_mask_mod in Heq.
  unfold add, mul, to_double in Hadd.
  destruct (Z.abs (round53 (s * 1103515245)) <? 2 ^ 1024); [| discriminate].
  destruct (Z.abs (round53 (round53 (s * 1103515245) + 12345)) <? 2 ^ 1024);
    [| discriminate].
  injection Hadd as Hv.
  set (w := round53 (s * 1103515245)) in *.
  pose proof (Z.div_mod v (2 ^ 31) ltac:(lia)) as Hdm.
  rewrite Heq in Hdm.
  set (k := v / 2 ^ 31) in *.
  destruct (Z.lt_ge_cases (Z.abs (w + 12345)) (2 ^ 53)) as [Hsum | Hsum].
  - rewrite round53_small in Hv by exact Hsum.
    destruct (Z.lt_ge_cases (Z.abs (s * 1103515245)) (2 ^ 53)) as [Hprod | Hprod].
    + pose proof (round53_small _ Hprod) as Hw. fold w in Hw.
      assert (Hs : s = 2 ^ 31 * (1857678181 * k + 1857678181 - 954594553 * s - 10679)
                       - 1916945634) by lia.
      lia.
    + pose proof (round53_large _ Hprod) as Hw. fold w in Hw. lia.
  - pose proof (round53_large _ Hsum) as Hbig. rewrite Hv in Hbig.
    unfold round53 in Hv.
    destruct (Z.ltb_spec (Z.abs (w + 12345)) (2 ^ 53)) as [? | _]; [lia |].
    set (a := Z.abs (w + 12345)) in *.
    assert (He : 1 <= Z.log2 a - 52).
    { assert (53 <= Z.log2 a); [| lia]. apply Z.log2_le_pow2; lia. }
    set (e := Z.log2 a - 52) in *.
    replace (2 ^ e) with (2 * 2 ^ (e - 1)) in Hv
      by (rewrite <- Z.pow_succ_r by lia; f_equal; lia).
    match type of Hv with
    | _ * (?q * _) = _ => set (q' := q) in *
    end.
    change 0x7fffffff with 2147483647 in Hdm.
    assert (v = 2 * (Z.sgn (w + 12345) * q' * 2 ^ (e - 1))) by lia.
    lia.
Qed.

End Rounding.

(** ** Facts about rounding to a double *)

Section Doubles.

Import JSNumber.
Local Open Scope Q_scope.

Lemma pow2_pos k : 0 < 2 ^ k.
Proof. apply Qpower_0_lt. reflexivity. Qed.

Lemma pow2_add a b : 2 ^ (a + b) == 2 ^ a * 2 ^ b.
Proof. apply Qpower_plus. discriminate. Qed.

Lemma pow2_succ a : 2 ^ (a + 1) == 2 * 2 ^ a.
Proof. rewrite pow2_add. change (2 ^ 1) with 2. ring. Qed.

Lemma pow2_inject k : (0 <= k)%Z -> inject_Z (2 ^ k) == 2 ^ k.
Proof. intros. apply (Zpower_Qpower 2 k). assumption. Qed.

Lemma pow2_le a b : (a <= b)%Z -> 2 ^ a <= 2 ^ b.
Proof.
  intros H. replace b with (a + (b - a))%Z by lia.
  rewrite pow2_add.
  assert (1 <= 2 ^ (b - a)).
  { rewrite <- pow2_inject by lia. change 1 with (inject_Z 1). rewrite <- Zle_Qle.
    apply (Z.pow_le_mono_r 2 0 (b - a)); lia. }
  pose proof (pow2_pos a). nra.
Qed.

Lemma pow2_lt_inv a b : 2 ^ a < 2 ^ b -> (a < b)%Z.
Proof.
  intros H. destruct (Z.lt_ge_cases a b) as [? | Hge]; [assumption |].
  apply pow2_le in Hge. lra.
Qed.

(** Bounds of an integer between consecutive powers of two, in Q. *)
Lemma log2_bounds n : (0 < n)%Z ->
  2 ^ Z.log2 n <= inject_Z n /\ inject_Z n < 2 * 2 ^ Z.log2 n.
Proof.
  intros Hn. destruct (Z.log2_spec n Hn) as [Hlo Hhi].
  pose proof (Z.log2_nonneg n) as H0.
  split.
  - rewrite <- pow2_inject by assumption. rewrite <- Zle_Qle. assumption.
  - rewrite <- pow2_succ. rewrite <- pow2_inject by lia. rewrite <- Zlt_Qlt.
    replace (Z.log2 n + 1)%Z with (Z.succ (Z.log2 n)) by lia. assumption.
Qed.

Lemma ilog2_spec q : 0 < q -> 2 ^ ilog2 q <= q /\ q < 2 ^ (ilog2 q + 1).
Proof.
  intros Hq. destruct q as [n d].
  assert (Hn : (0 < n)%Z).
  { unfold Qlt in Hq. simpl in Hq. lia. }
  unfold ilog2. cbn [Qnum Qden].
  destruct (log2_bounds n Hn) as [Hn1 Hn2].
  destruct (log2_bounds (Zpos d) eq_refl) as [Hd1 Hd2].
  set (a := Z.log2 n) in *. set (b := Z.log2 (Zpos d)) in *.
  pose proof (pow2_pos a) as Ha. pose proof (pow2_pos b) as Hb.
  pose proof (pow2_pos (a - b)) as Hx.
  assert (Hab : 2 ^ a == 2 ^ (a - b) * 2 ^ b).
  { rewrite <- pow2_add. replace (a - b + b)%Z with a by lia. reflexivity. }
  assert (Hqd : (n # d) * inject_Z (Zpos d) == inject_Z n).
  { rewrite (Qmake_Qdiv n d). field. discriminate. }
  set (q := n # d) in *. set (D := inject_Z (Zpos d)) in *. set (N := inject_Z n) in *.
  set (X := 2 ^ (a - b)) in *. set (A := 2 ^ a) in *. set (B := 2 ^ b) in *.
  assert (Hup : q < 2 * X) by nra.
  assert (Hlo : X < 2 * q) by nra.
  destruct (Qle_bool X q) eqn:Hc.
  - apply Qle_bool_iff in Hc. split; [assumption |].
    rewrite pow2_succ. assumption.
  - assert (Hlt : q < X).
    { apply Qnot_le_lt. intros Hle. apply Qle_bool_iff in Hle. congruence. }
    replace (a - b - 1 + 1)%Z with (a - b)%Z by lia.
    split; [| assumption].
    assert (Hh : 2 * 2 ^ (a - b - 1) == X).
    { rewrite <- pow2_succ. replace (a - b - 1 + 1)%Z with (a - b)%Z by lia. reflexivity. }
    lra.
Qed.

Lemma rne_le_int y N : y <= inject_Z N -> (rne y <= N)%Z.
Proof.
  intros Hy. unfold rne.
  pose proof (Qfloor_le y) as Hf.
  assert (HfN : (Qfloor y <= N)%Z).
  { rewrite <- (Qfloor_Z N). apply Qfloor_resp_le. assumption. }
  destruct (Z.eq_dec (Qfloor y) N) as [Heq | Hne].
  - assert (Hz : y - inject_Z (Qfloor y) == 0).
    { rewrite Heq in *. lra. }
    rewrite Hz. cbn. lia.
  - destruct (_ ?= _); [destruct (Z.even _) | |]; lia.
Qed.

Lemma rne_nonneg y : 0 <= y -> (0 <= rne y)%Z.
Proof.
  intros Hy. unfold rne.
  assert (H0 : (0 <= Qfloor y)%Z).
  { change 0%Z with (Qfloor 0). apply Qfloor_resp_le. assumption. }
  destruct (_ ?= _); [destruct (Z.even _) | |]; lia.
Qed.

Lemma rnd_nonneg x : 0 <= x -> 0 <= rnd x.
Proof.
  intros Hx. unfold rnd.
  destruct (Qnum x) eqn:Hn; [apply Qle_refl | |];
    rewrite Qred_correct;
    set (e := ilog2 (Qabs x));
    pose proof (pow2_pos (52 - e)); pose proof (pow2_pos (e - 52));
    assert (0 <= inject_Z (rne (x * 2 ^ (52 - e))))
      by (change 0 with (inject_Z 0); rewrite <- Zle_Qle; apply rne_nonneg; nra);
    nra.
Qed.

(** Rounding never steps over a double: a bound with a 53-bit significand
    [m] and exponent [k] is kept. *)
Lemma rnd_le_double m k x :
  (2 ^ 52 <= m < 2 ^ 53)%Z ->
  x <= inject_Z m * 2 ^ (k - 52) ->
  rnd x <= inject_Z m * 2 ^ (k - 52).
Proof.
  intros [Hm1 Hm2] Hx.
  rewrite Zle_Qle in Hm1. rewrite Zlt_Qlt in Hm2.
  change (inject_Z (2 ^ 52)) with (2 ^ 52) in Hm1.
  change (inject_Z (2 ^ 53)) with (2 ^ 53) in Hm2.
  set (M := inject_Z m) in *.
  pose proof (pow2_pos (k - 52)) as Hk.
  assert (Hk1 : 2 ^ 52 * 2 ^ (k - 52) == 2 ^ k).
  { rewrite <- pow2_add. replace (52 + (k - 52))%Z with k by lia. reflexivity. }
  assert (Hk2 : 2 ^ 53 * 2 ^ (k - 52) == 2 ^ (k + 1)).
  { rewrite <- pow2_add. replace (53 + (k - 52))%Z with (k + 1)%Z by lia. reflexivity. }
  assert (HP : 0 < M * 2 ^ (k - 52)) by nra.
  unfold rnd.
  destruct (Qnum x) eqn:Hn; [apply Qlt_le_weak; assumption | |].
  - (* positive *)
    rewrite Qred_correct.
    assert (Hpos : 0 < x).
    { destruct x as [n d]. cbn in Hn. subst n. reflexivity. }
    assert (Habs : Qabs x = x).
    { destruct x as [n d]. cbn in Hn. subst n. reflexivity. }
    rewrite Habs.
    destruct (ilog2_spec x Hpos) as [He1 He2].
    set (e := ilog2 x) in *.
    assert (Hek : (e <= k)%Z).
    { assert (2 ^ e < 2 ^ (k + 1)) by nra.
      assert (e < k + 1)%Z by (apply pow2_lt_inv; assumption). lia. }
    pose proof (pow2_pos (52 - e)) as Hs. pose proof (pow2_pos (e - 52)) as Hs'.
    assert (Hinv : 2 ^ (52 - e) * 2 ^ (e - 52) == 1).
    { rewrite <- pow2_add. replace (52 - e + (e - 52))%Z with 0%Z by lia. reflexivity. }
    destruct (Z.eq_dec e k) as [Heq | Hne].
    + rewrite Heq in *.
      assert (Hy : x * 2 ^ (52 - k) <= M).
      { assert (x * 2 ^ (52 - k) <= M * 2 ^ (k - 52) * 2 ^ (52 - k)) by nra.
        assert (M * 2 ^ (k - 52) * 2 ^ (52 - k) == M).
        { rewrite <- Qmult_assoc, (Qmult_comm (2 ^ (k - 52))), Hinv. ring. }
        lra. }
      apply rne_le_int in Hy. rewrite Zle_Qle in Hy. fold M in Hy. nra.
    + assert (Hy : x * 2 ^ (52 - e) <= inject_Z (2 ^ 53)).
      { change (inject_Z (2 ^ 53)) with (2 ^ 53).
        assert (He3 : 2 ^ (e + 1) * 2 ^ (52 - e) == 2 ^ 53).
        { rewrite <- pow2_add. replace (e + 1 + (52 - e))%Z with 53%Z by lia. reflexivity. }
        nra. }
      apply rne_le_int in Hy. rewrite Zle_Qle in Hy.
      change (inject_Z (2 ^ 53)) with (2 ^ 53) in Hy.
      assert (He4 : 2 ^ 53 * 2 ^ (e - 52) == 2 ^ (e + 1)).
      { rewrite <- pow2_add. replace (53 + (e - 52))%Z with (e + 1)%Z by lia. reflexivity. }
      assert (He5 : 2 ^ (e + 1) <= 2 ^ k) by (apply pow2_le; lia).
      set (R := inject_Z (rne (x * 2 ^ (52 - e)))) in *.
      nra.
  - (* negative *)
    rewrite Qred_correct.
    set (e := ilog2 (Qabs x)).
    pose proof (pow2_pos (52 - e)) as Hs. pose proof (pow2_pos (e - 52)) as Hs'.
    assert (Hneg : x <= 0).
    { destruct x as [n d]. cbn in Hn. subst n. unfold Qle. cbn. lia. }
    assert (Hy : x * 2 ^ (52 - e) <= inject_Z 0) by (change (inject_Z 0) with 0; nra).
    apply rne_le_int in Hy. rewrite Zle_Qle in Hy. change (inject_Z 0) with 0 in Hy.
    nra.
Qed.

Lemma fge_false x y : fge x y = false -> x < y.
Proof.
  unfold fge. intros H. apply Qnot_le_lt. intros Hle.
  apply Qle_bool_iff in Hle. congruence.
Qed.

Lemma fadd_nonneg x y : 0 <= x -> 0 <= y -> 0 <= fadd x y.
Proof. intros Hx Hy. apply rnd_nonneg. lra. Qed.

Lemma max0_nonneg x : 0 <= max0 x.
Proof.
  unfold max0. destruct (Qle_bool x 0) eqn:H; [apply Qle_refl |].
  apply Qlt_le_weak, Qnot_le_lt. intros Hle.
  apply Qle_bool_iff in Hle. congruence.
Qed.

(** A value of at most 100 less a non-negative amount stays at most 100
    after rounding, 100 being a double. *)
Lemma max0_fsub_le_100 x d : x <= 100 -> 0 <= d -> max0 (fsub x d) <= 100.
Proof.
  intros Hx Hd. unfold max0.
  destruct (Qle_bool (fsub x d) 0); [discriminate |].
  unfold fsub.
  assert (H100 : 100 == inject_Z (100 * 2 ^ 46) * 2 ^ (6 - 52)) by reflexivity.
  rewrite H100. apply rnd_le_double; [lia |]. rewrite <- H100. lra.
Qed.

End Doubles.

(** ** The generator's range *)

Lemma rng_value_bounds st :
  (0 <= st < 0x7fffffff)%Z -> (0 <= rng_value st /\ rng_value st < 1)%Q.
Proof.
  intros [H0 H1]. unfold rng_value, JSNumber.fdiv.
  rewrite Zle_Qle in H0.
  assert (H1' : (st <= 2147483646)%Z) by lia.
  rewrite Zle_Qle in H1'.
  set (x := inject_Z st) in *.
  split.
  - apply rnd_nonneg.
    change (inject_Z 0x7fffffff) with (2147483647 # 1)%Q.
    change (inject_Z 0) with 0%Q in H0.
    unfold Qdiv. change (/ (2147483647 # 1))%Q with (1 # 2147483647)%Q.
    nra.
  - apply Qle_lt_trans with (inject_Z (2 ^ 53 - 2 ^ 22) * 2 ^ (-1 - 52))%Q;
      [| reflexivity].
    apply rnd_le_double; [lia |].
    change (inject_Z 0x7fffffff) with (2147483647 # 1)%Q.
    change (inject_Z 2147483646) with (2147483646 # 1)%Q in H1'.
    unfold Qdiv. change (/ (2147483647 # 1))%Q with (1 # 2147483647)%Q.
    change (inject_Z (2 ^ 53 - 2 ^ 22) * 2 ^ (-1 - 52))%Q
      with ((9007199250546688 # 1) * (1 # 9007199254740992))%Q.
    nra.
Qed.

(** C9: whatever the seed, every value the generator returns is at least 0
    and strictly below 1.  The all-ones state, whose quotient would be 1, is
    never produced by the rounded arithmetic. *)
Theorem rng_output_in_unit_interval (seed : Z) (n : nat) :
  (0 <= rng_nth seed n /\ rng_nth seed n < 1)%Q.
Proof.
  unfold rng_nth, rng. cbn [fst].
  apply rng_value_bounds.
  pose proof (rng_state_bounds (rng_iter n seed)).
  pose proof (rng_state_not_ones (rng_iter n seed)).
  change 0x7fffffff with 2147483647 in *. change (2 ^ 31) with 2147483648 in *.
  lia.
Qed.

(** The same constants without rounding do reach the all-ones state, from
    which the quotient is exactly 1: the bound above rests on the rounding. *)
Lemma lcg_exact_reaches_ones :
  lcg_exact 230538014 = 0x7fffffff /\ rng_state 230538014 = 0.
Proof. split; vm_compute; reflexivity. Qed.

(** On integers the two roundings are one: [round53] is [rnd] read on [Z]. *)
Example round53_is_rnd_on_samples :
  map (fun x => JSNumber.rnd (inject_Z x))
    [0; 12345; -5; 2 ^ 53 + 1; 2 ^ 53 + 3; - (2 ^ 60 + 2 ^ 7);
     230538014 * 1103515245; 1700000000000 * 1103515245]
  = map (fun x => inject_Z (JSNumber.round53 x))
      [0; 12345; -5; 2 ^ 53 + 1; 2 ^ 53 + 3; - (2 ^ 60 + 2 ^ 7);
       230538014 * 1103515245; 1700000000000 * 1103515245].
Proof. vm_compute. reflexivity. Qed.

(** ** Walking through the transitions *)

(** The arithmetic and the catalogue stay folded while a proof follows the
    control flow. *)
Arguments JSNumber.round53 : simpl never.
Arguments JSNumber.rnd : simpl never.
Arguments JSNumber.fadd : simpl never.
Arguments JSNumber.fsub : simpl never.
Arguments JSNumber.fmul : simpl never.
Arguments JSNumber.fdiv : simpl never.
Arguments JSNumber.flt : simpl never.
Arguments JSNumber.fge : simpl never.
Arguments JSNumber.fgt : simpl never.
Arguments JSNumber.max0 : simpl never.
Arguments JSNumber.floor : simpl never.
Arguments rng : simpl never.
Arguments rng_state : simpl never.
Arguments rng_value : simpl never.
Arguments attackChance : simpl never.
Arguments STAGGER_DECAY_PER_SECOND : simpl never.
Arguments RUST_WARDEN_ATTACKS : simpl never.
Arguments index : simpl never.

(** Splits on the first test a transition makes, then simplifies. *)
Ltac split_test :=
  match goal with
  | |- context [if ?c then _ else _] => destruct c eqn:?
  | |- context [match ?x with _ => _ end] => destruct x eqn:?
  end; cbn in *.

Ltac walk := cbn in *; repeat split_test; cbn in *.

(** Names the fields of the engine at hand. *)
Ltac open_engine :=
  match goal with
  | this : CombatSystem |- _ => destruct this as [[] ? ? ? ?]
  end; cbn in *.

Ltac unfold_private :=
  unfold processVulnerability, decayStagger, processPlayerAttack,
    processAttackCollision, processBossAI, rollAttack, startBossAttack,
    call_rng, executeAttack, handlePlayerDeath, handleBlock, handleParry,
    triggerVulnerability, dealDamageToBoss, push in *.

Ltac unfold_public :=
  unfold step, tick, playerAttack, attemptParry, moveShield, forceAttack,
    setPracticeAttack in *.

(** ** Frame counter *)

Lemma processBossAI_frame this :
  currentFrame (state (processBossAI this)) = currentFrame (state this).
Proof. open_engine. unfold_private. walk; reflexivity. Qed.

Lemma processAttackCollision_frame this :
  currentFrame (state (processAttackCollision this)) = currentFrame (state this).
Proof. open_engine. unfold_private. walk; reflexivity. Qed.

Lemma processPlayerAttack_frame this :
  currentFrame (state (processPlayerAttack this)) = currentFrame (state this).
Proof. open_engine. unfold_private. walk; reflexivity. Qed.

Lemma decayStagger_frame this :
  currentFrame (state (decayStagger this)) = currentFrame (state this).
Proof. open_engine. unfold_private. walk; reflexivity. Qed.

Lemma processVulnerability_frame this :
  currentFrame (state (processVulnerability this)) = currentFrame (state this).
Proof. open_engine. unfold_private. walk; reflexivity. Qed.

Lemma tick_alive_frame this :
  playerAlive (state this) = true ->
  currentFrame (state (tick this)) = currentFrame (state this) + 1.
Proof.
  intros Halive. unfold tick. rewrite Halive. cbn [negb].
  rewrite processVulnerability_frame, decayStagger_frame,
    processPlayerAttack_frame, processAttackCollision_frame,
    processBossAI_frame.
  destruct this as [[] ? ? ? ?]. reflexivity.
Qed.

Lemma tick_dead this : playerAlive (state this) = false -> tick this = this.
Proof. intros Hdead. unfold tick. rewrite Hdead. reflexivity. Qed.

Lemma command_frame this c :
  c <> Tick -> currentFrame (state (step this c)) = currentFrame (state this).
Proof.
  intros Hc. open_engine.
  destruct c; try congruence;
    unfold_public; unfold_private; walk; reflexivity.
Qed.

(** C6: a tick adds exactly 1 to [currentFrame] while the player is alive
    and changes nothing at all once the player is dead; the command methods
    never touch [currentFrame]. *)
Theorem tick_advances_frame_by_one (this : CombatSystem) :
  (playerAlive (state this) = true ->
   currentFrame (state (tick this)) = currentFrame (state this) + 1)
  /\ (playerAlive (state this) = false -> tick this = this)
  /\ (forall c, c <> Tick ->
        currentFrame (state (step this c)) = currentFrame (state this)).
Proof.
  split; [apply tick_alive_frame | split; [apply tick_dead |]].
  intros c Hc. apply command_frame. exact Hc.
Qed.

(** ** Reachability *)

Lemma reachable_run this calls : reachable this -> reachable (run this calls).
Proof.
  revert this. induction calls as [| c calls IH]; intros this H; cbn.
  - exact H.
  - apply IH. apply reachable_step. exact H.
Qed.

Lemma reachable_ticks n this : reachable this -> reachable (ticks n this).
Proof.
  revert this. induction n as [| n IH]; intros this H; cbn.
  - exact H.
  - apply IH. apply (reachable_step this Tick). exact H.
Qed.

(** An invariant of the state holds in every reachable engine once it holds
    after construction and is kept by each call. *)
Lemma reachable_ind_state (P : CombatState -> Prop) :
  (forall now seed hp mode, P (state (constructor now seed hp mode))) ->
  (forall this c, P (state this) -> P (state (step this c))) ->
  forall this, reachable this -> P (state this).
Proof.
  intros Hnew Hstep this H. induction H; [apply Hnew | apply Hstep; assumption].
Qed.

(** A property kept by the five phases of a tick and by the commands is kept
    by every call. *)
Lemma step_keeps (P : CombatState -> Prop) :
  (forall this, P (state this) ->
     P (state (upd (fun s => set_currentFrame (currentFrame s + 1) s) this))) ->
  (forall this, P (state this) -> P (state (processBossAI this))) ->
  (forall this, P (state this) -> P (state (processAttackCollision this))) ->
  (forall this, P (state this) -> P (state (processPlayerAttack this))) ->
  (forall this, P (state this) -> P (state (decayStagger this))) ->
  (forall this, P (state this) -> P (state (processVulnerability this))) ->
  (forall this c, c <> Tick -> P (state this) -> P (state (step this c))) ->
  forall this c, P (state this) -> P (state (step this c)).
Proof.
  intros Hframe Hai Hcol Hatt Hdecay Hvul Hcmd this c H.
  destruct c; try (apply Hcmd; [discriminate | exact H]).
  cbn [step]. unfold tick.
  destruct (negb (playerAlive (state this))); [exact H |].
  cbn zeta. apply Hvul, Hdecay, Hatt, Hcol, Hai, Hframe, H.
Qed.

(** ** Vulnerability excludes an attack in flight *)

Ltac close_vulnerable :=
  intros;
  repeat match goal with
    | H : _ || _ = false |- _ => apply orb_false_iff in H; destruct H
    | Hi : ?P -> _, Hp : ?P |- _ => specialize (Hi Hp)
    end;
  try congruence; auto.

Lemma step_vulnerable this c :
  vulnerable_excludes_attack (state this) ->
  vulnerable_excludes_attack (state (step this c)).
Proof.
  revert this c. apply step_keeps; unfold vulnerable_excludes_attack.
  7: intros this c Hc Hinv; open_engine; destruct c; try congruence;
     unfold_public.
  all: intros; try open_engine; unfold_private; walk; close_vulnerable.
Qed.

(** C3: in every reachable state a vulnerable boss has no attack in
    flight. *)
Theorem vulnerable_boss_has_no_attack (this : CombatSystem) :
  reachable this ->
  bossVulnerable (state this) = true -> bossCurrentAttack (state this) = None.
Proof.
  intros H.
  apply (reachable_ind_state vulnerable_excludes_attack); try assumption.
  - intros; unfold vulnerable_excludes_attack; cbn; discriminate.
  - intros; apply step_vulnerable; assumption.
Qed.

(** ** Hit points *)

(** One rounded [dealDamageToBoss] keeps the balance: a sum that is still
    below 2^53 was computed exactly, and so was the difference. *)
Lemma hp_balance_damage hp d m k :
  0 < k ->
  0 <= d
  /\ (m < 2 ^ 53 -> d < 2 ^ 53 -> - 2 ^ 53 < m - d -> hp + d = m) ->
  0 <= JSNumber.round53 (d + k)
  /\ (m < 2 ^ 53 -> JSNumber.round53 (d + k) < 2 ^ 53 ->
      - 2 ^ 53 < m - JSNumber.round53 (d + k) ->
      JSNumber.round53 (hp - k) + JSNumber.round53 (d + k) = m).
Proof.
  intros Hk [Hd Hbal].
  split; [apply round53_nonneg; lia |].
  intros Hm Hd' Hlow.
  assert (Hsum : d + k < 2 ^ 53).
  { destruct (Z_lt_le_dec (d + k) (2 ^ 53)) as [Hlt | Hge]; [exact Hlt |].
    pose proof (round53_large (d + k) ltac:(lia)) as Hbig.
    pose proof (round53_nonneg (d + k) ltac:(lia)). lia. }
  rewrite (round53_small (d + k)) in * by lia.
  rewrite (round53_small (hp - k)); lia.
Qed.

Lemma step_hp this c : hp_balance (state this) -> hp_balance (state (step this c)).
Proof.
  revert this c. apply step_keeps; unfold hp_balance.
  7: intros this c Hc Hinv; open_engine; destruct c; try congruence;
     unfold_public.
  all: intros; try open_engine; unfold_private; walk;
    first [assumption
          | apply hp_balance_damage;
            [unfold SAFE_ATTACK_DAMAGE, CRITICAL_DAMAGE; lia | assumption]].
Qed.

Lemma step_keeps_bossMaxHP v this c :
  bossMaxHP (state this) = v -> bossMaxHP (state (step this c)) = v.
Proof.
  revert this c. apply (step_keeps (fun s => bossMaxHP s = v)).
  7: intros this c Hc Hinv; open_engine; destruct c; try congruence;
     unfold_public.
  all: intros; try open_engine; unfold_private; walk; assumption.
Qed.

Lemma step_bossMaxHP this c : bossMaxHP (state (step this c)) = bossMaxHP (state this).
Proof. apply step_keeps_bossMaxHP. reflexivity. Qed.

(** C10: in every reachable state in which the maximum, the damage dealt
    and their difference are below 2^53 in magnitude, the boss's remaining
    hit points and the damage dealt add up to its maximum; and no call ever
    changes the maximum. *)
Theorem boss_hp_plus_damage_is_max (this : CombatSystem) :
  reachable this ->
  (Z.abs (bossMaxHP (state this)) < 2 ^ 53 ->
   Z.abs (damageDealt (state this)) < 2 ^ 53 ->
   Z.abs (bossMaxHP (state this) - damageDealt (state this)) < 2 ^ 53 ->
   bossHP (state this) + damageDealt (state this) = bossMaxHP (state this))
  /\ forall c, bossMaxHP (state (step this c)) = bossMaxHP (state this).
Proof.
  intros H. split; [| intros c; apply step_bossMaxHP].
  assert (Hbal : hp_balance (state this)).
  { apply (reachable_ind_state hp_balance); try assumption.
    - intros; unfold hp_balance; cbn; lia.
    - intros; apply step_hp; assumption. }
  intros Hm Hd Hdiff. apply Hbal; lia.
Qed.

(** ** Stagger bound *)

Lemma stagger_decay_nonneg :
  (0 <= JSNumber.fdiv STAGGER_DECAY_PER_SECOND TICKS_PER_SECOND)%Q.
Proof. apply rnd_nonneg. vm_compute. discriminate. Qed.

Lemma parry_stagger_nonneg m :
  (0 <= m)%Q -> (0 <= JSNumber.fmul PARRY_STAGGER m)%Q.
Proof.
  intros Hm. apply rnd_nonneg. unfold PARRY_STAGGER.
  apply Qmult_le_0_compat; [discriminate | exact Hm].
Qed.

(** The three ways the stagger meter moves: a gain that stayed under the
    threshold, a reset by [triggerVulnerability], the per-tick decay. *)
Ltac close_stagger :=
  match goal with
  | H : (0 <= ?s /\ ?s <= STAGGER_MAX)%Q |- _ =>
      let Hlo := fresh "Hlo" in
      let Hhi := fresh "Hhi" in
      destruct H as [Hlo Hhi];
      first
        [ split; assumption
        | split; [apply Qle_refl | discriminate]
        | split;
          [ apply max0_nonneg
          | apply max0_fsub_le_100; [exact Hhi | apply stagger_decay_nonneg] ]
        | split;
          [ apply fadd_nonneg;
            [ exact Hlo
            | first [discriminate | apply parry_stagger_nonneg; discriminate] ]
          | apply Qlt_le_weak, fge_false; assumption ] ]
  end.

Lemma step_stagger this c :
  stagger_in_range (state this) -> stagger_in_range (state (step this c)).
Proof.
  revert this c. apply step_keeps; unfold stagger_in_range.
  7: intros this c Hc Hinv; open_engine; destruct c; try congruence;
     unfold_public.
  all: intros; try open_engine; unfold_private; walk; close_stagger.
Qed.

(** C2: in every reachable state the stagger meter lies between 0 and
    [STAGGER_MAX] (100), bounds included. *)
Theorem stagger_within_bounds (this : CombatSystem) :
  reachable this ->
  (0 <= bossStagger (state this) /\ bossStagger (state this) <= STAGGER_MAX)%Q.
Proof.
  intros H.
  apply (reachable_ind_state stagger_in_range); try assumption.
  - intros; unfold stagger_in_range; cbn; split; [apply Qle_refl | discriminate].
  - intros; apply step_stagger; assumption.
Qed.

(** ** The parry window *)

Lemma attemptParry_window this a accuracy :
  playerAlive (state this) = true ->
  bossCurrentAttack (state this) = Some a ->
  bossAttackHitProcessed (state this) = false ->
  fst (attemptParry (zone a) accuracy this) = true <->
  windupFrames a - earlyWindow
    <= currentFrame (state this) - bossAttackStartFrame (state this)
    < windupFrames a + activeFrames a.
Proof.
  intros Halive Hatt Hhit. open_engine. subst.
  unfold attemptParry. cbn. unfold push. cbn.
  rewrite Z.eqb_refl.
  destruct (Z.leb_spec (windupFrames a - earlyWindow)
              (currentFrame0 - bossAttackStartFrame0));
    destruct (Z.ltb_spec (currentFrame0 - bossAttackStartFrame0)
                (windupFrames a + activeFrames a));
    cbn; split; intros; try lia; try discriminate; reflexivity.
Qed.

(** C4: with the player alive and an attack of 100 wind-up and 40 active
    frames in flight whose impact is still pending, a parry aimed at the
    attack's zone succeeds exactly when 55 <= elapsed frames < 140, whatever
    the accuracy. *)
Theorem parry_window_55_140 (this : CombatSystem) (a : Attack) (accuracy : Q) :
  playerAlive (state this) = true ->
  bossCurrentAttack (state this) = Some a ->
  bossAttackHitProcessed (state this) = false ->
  windupFrames a = 100 ->
  activeFrames a = 40 ->
  fst (attemptParry (zone a) accuracy this) = true <->
  55 <= currentFrame (state this) - bossAttackStartFrame (state this) < 140.
Proof.
  intros Halive Hatt Hhit Hw Ha.
  rewrite (attemptParry_window this a accuracy Halive Hatt Hhit).
  rewrite Hw, Ha. unfold earlyWindow. lia.
Qed.

(** ** The input log *)

Lemma attemptParry_alive_log this zone0 accuracy :
  playerAlive (state this) = true ->
  getInputLog (snd (attemptParry zone0 accuracy this))
  = (getInputLog this
       ++ [mkInputEvent (currentFrame (state this)) InputType.parry
             (Some zone0) (Some accuracy)])%list.
Proof.
  intros Halive. open_engine. subst.
  unfold attemptParry, getInputLog. unfold_private. walk; reflexivity.
Qed.

Lemma attemptParry_dead this zone0 accuracy :
  playerAlive (state this) = false ->
  attemptParry zone0 accuracy this = (false, this).
Proof. intros Hdead. unfold attemptParry. rewrite Hdead. reflexivity. Qed.

(** C8, as the code has it: while the player is alive every call to
    [attemptParry] appends one parry event carrying the current frame, the
    zone and the accuracy, whatever the call returns; once the player is
    dead the call returns false and leaves the engine, log included, as it
    was. *)
Theorem attemptParry_logs_while_alive
  (this : CombatSystem) (zone0 : AttackZone) (accuracy : Q) :
  (playerAlive (state this) = true ->
   getInputLog (snd (attemptParry zone0 accuracy this))
   = (getInputLog this
        ++ [mkInputEvent (currentFrame (state this)) InputType.parry
              (Some zone0) (Some accuracy)])%list)
  /\ (playerAlive (state this) = false ->
      attemptParry zone0 accuracy this = (false, this)).
Proof.
  split; [apply attemptParry_alive_log | apply attemptParry_dead].
Qed.

(** ** Construction *)

(** C7, as the code has it: the constructor validates nothing.  With a
    maximum of zero or less it still returns an engine, whose boss starts at
    that many hit points and so counts as defeated at once. *)
Theorem constructor_accepts_nonpositive_hp (now seed hp : Z) (mode : GameMode) :
  hp <= 0 ->
  exists this,
    new_CombatSystem now seed hp mode = Normal this
    /\ bossHP (state this) = hp
    /\ bossMaxHP (state this) = hp
    /\ isBossDefeated this = true.
Proof.
  intros Hhp. exists (constructor now seed hp mode).
  repeat split. unfold isBossDefeated. cbn. apply Z.leb_le. exact Hhp.
Qed.

(** ** Replay *)

Section StartTime.

Variable t : Z.

Ltac commute :=
  intros; unfold at_time; open_engine; unfold_private; walk;
  first [reflexivity | congruence].

Lemma frame_at_time this :
  upd (fun s => set_currentFrame (currentFrame s + 1) s) (at_time t this)
  = at_time t (upd (fun s => set_currentFrame (currentFrame s + 1) s) this).
Proof. commute. Qed.

Lemma alive_at_time this :
  playerAlive (state (at_time t this)) = playerAlive (state this).
Proof. commute. Qed.

Lemma processBossAI_at_time this :
  processBossAI (at_time t this) = at_time t (processBossAI this).
Proof. commute. Qed.

Lemma processAttackCollision_at_time this :
  processAttackCollision (at_time t this) = at_time t (processAttackCollision this).
Proof. commute. Qed.

Lemma processPlayerAttack_at_time this :
  processPlayerAttack (at_time t this) = at_time t (processPlayerAttack this).
Proof. commute. Qed.

Lemma decayStagger_at_time this :
  decayStagger (at_time t this) = at_time t (decayStagger this).
Proof. commute. Qed.

Lemma processVulnerability_at_time this :
  processVulnerability (at_time t this) = at_time t (processVulnerability this).
Proof. commute. Qed.

Lemma tick_at_time this : tick (at_time t this) = at_time t (tick this).
Proof.
  unfold tick. rewrite alive_at_time.
  destruct (negb (playerAlive (state this))); [reflexivity |].
  cbn zeta.
  rewrite frame_at_time, processBossAI_at_time, processAttackCollision_at_time,
    processPlayerAttack_at_time, decayStagger_at_time,
    processVulnerability_at_time.
  reflexivity.
Qed.

(** Every call does the same whatever the start time, and leaves it alone. *)
Lemma step_at_time this c : step (at_time t this) c = at_time t (step this c).
Proof.
  destruct c; cbn [step]; [apply tick_at_time | ..];
    unfold at_time; open_engine; unfold_public; unfold_private; walk;
    first [reflexivity | congruence].
Qed.

Lemma attemptParry_at_time this z acc :
  fst (attemptParry z acc (at_time t this)) = fst (attemptParry z acc this).
Proof.
  unfold at_time; open_engine; unfold_public; unfold_private; walk;
    first [reflexivity | congruence].
Qed.

Lemma run_at_time calls this : run (at_time t this) calls = at_time t (run this calls).
Proof.
  revert this. induction calls as [| c calls IH]; intros this; cbn.
  - reflexivity.
  - rewrite step_at_time. apply IH.
Qed.

End StartTime.

(** C1, as the code has it: two engines built with the same seed, maximum
    and mode, and driven by the same calls, agree after every step on every
    field of the snapshot except [runStartTime], which holds each engine's
    own reading of the clock at construction. *)
Theorem replay_agrees_up_to_start_time
  (now1 now2 seed hp : Z) (mode : GameMode) (calls : list Call) (k : nat) :
  let this1 := run (constructor now1 seed hp mode) (firstn k calls) in
  let this2 := run (constructor now2 seed hp mode) (firstn k calls) in
  getState this1 = set_runStartTime now1 (getState this2)
  /\ runStartTime (getState this1) = now1
  /\ runStartTime (getState this2) = now2.
Proof.
  cbn zeta.
  assert (Hrun : forall a b l,
             run (constructor a seed hp mode) l
             = at_time a (run (constructor b seed hp mode) l)).
  { intros a b l. rewrite <- run_at_time. reflexivity. }
  split; [| split].
  - rewrite (Hrun now1 now2). reflexivity.
  - rewrite (Hrun now1 now2). unfold getState, at_time.
    destruct (run _ _) as [[] ? ? ? ?]. reflexivity.
  - rewrite (Hrun now2 now1). unfold getState, at_time.
    destruct (run _ _) as [[] ? ? ? ?]. reflexivity.
Qed.

(** C1 as stated fails: two engines built one millisecond apart, with the
    same seed, maximum and mode, differ in their snapshots after the first
    tick. *)
Lemma replay_differs_in_start_time :
  getState (run (constructor 0 7 10 STANDARD) [Tick])
  <> getState (run (constructor 1 7 10 STANDARD) [Tick]).
Proof.
  intros H. apply (f_equal runStartTime) in H. vm_compute in H. discriminate.
Qed.

(** ** Impact resolution *)

Ltac bool_to_Z :=
  repeat match goal with
    | H : (_ =? _) = true |- _ => apply Z.eqb_eq in H
    | H : (_ =? _) = false |- _ => apply Z.eqb_neq in H
    | H : (_ <=? _) = true |- _ => apply Z.leb_le in H
    | H : (_ <=? _) = false |- _ => apply Z.leb_gt in H
    | H : (_ <? _) = true |- _ => apply Z.ltb_lt in H
    | H : (_ <? _) = false |- _ => apply Z.ltb_ge in H
    end.

Lemma processPlayerAttack_view this :
  impact_view (state (processPlayerAttack this)) = impact_view (state this).
Proof. open_engine. unfold_private. walk; reflexivity. Qed.

Lemma decayStagger_view this :
  impact_view (state (decayStagger this)) = impact_view (state this).
Proof. open_engine. unfold_private. walk; reflexivity. Qed.

Lemma processVulnerability_view this :
  impact_view (state (processVulnerability this)) = impact_view (state this).
Proof. open_engine. unfold_private. walk; reflexivity. Qed.

(** After the frame counter moved, only the first two phases of a tick
    bear on the impact. *)
Lemma tick_view this :
  playerAlive (state this) = true ->
  impact_view (state (tick this))
  = impact_view
      (state (processAttackCollision
                (processBossAI
                   (upd (fun s => set_currentFrame (currentFrame s + 1) s) this)))).
Proof.
  intros Halive. unfold tick. rewrite Halive. cbn [negb]. cbn zeta.
  rewrite processVulnerability_view, decayStagger_view, processPlayerAttack_view.
  reflexivity.
Qed.

Lemma tick_pending this a :
  playerAlive (state this) = true ->
  bossCurrentAttack (state this) = Some a ->
  bossAttackHitProcessed (state this) = false ->
  currentFrame (state this) + 1 - bossAttackStartFrame (state this)
    < windupFrames a + IMPACT_DELAY_FRAMES ->
  IMPACT_DELAY_FRAMES <= activeFrames a + recoveryFrames a ->
  impact_view (state (tick this))
  = (currentFrame (state this) + 1, true, playerShieldZone (state this), Some a,
     bossAttackStartFrame (state this), false, blocksPerformed (state this),
     deathCount (state this), mode (state this)).
Proof.
  intros Halive Hatt Hhit Hlt Hlen. rewrite (tick_view this Halive).
  open_engine. subst. unfold impact_view. unfold_private. cbn.
  walk; bool_to_Z; unfold IMPACT_DELAY_FRAMES in *; first [reflexivity | lia].
Qed.

Lemma tick_impact this a :
  playerAlive (state this) = true ->
  bossCurrentAttack (state this) = Some a ->
  bossAttackHitProcessed (state this) = false ->
  currentFrame (state this) + 1 - bossAttackStartFrame (state this)
    = windupFrames a + IMPACT_DELAY_FRAMES ->
  let s' := state (tick this) in
  currentFrame s' = currentFrame (state this) + 1
  /\ bossAttackHitProcessed s' = true
  /\ if (playerShieldZone (state this) =? zone a) && isBlocking a
     then blocksPerformed s' = blocksPerformed (state this) + 1
          /\ deathCount s' = deathCount (state this)
          /\ playerAlive s' = true
     else blocksPerformed s' = blocksPerformed (state this)
          /\ deathCount s' = deathCount (state this) + 1
          /\ playerAlive s' = GameMode_eqb (mode (state this)) PRACTICE.
Proof.
  intros Halive Hatt Hhit Heq. cbn zeta.
  pose proof (tick_view this Halive) as Hview.
  remember (state (tick this)) as s' eqn:Hs'. clear Hs'.
  revert Hview. open_engine. subst. unfold impact_view. unfold_private. cbn.
  assert (Hat : (currentFrame0 + 1 - bossAttackStartFrame0 - windupFrames a
                 =? IMPACT_DELAY_FRAMES) = true) by (apply Z.eqb_eq; lia).
  rewrite Hat. cbn.
  walk; intros Hview; injection Hview as -> -> _ _ _ -> -> -> _;
    repeat split; reflexivity.
Qed.

Lemma ticks_succ_r k this : ticks (S k) this = tick (ticks k this).
Proof.
  revert this. induction k as [| k IH]; intros this.
  - reflexivity.
  - change (ticks (S (S k)) this) with (ticks (S k) (tick this)).
    rewrite IH. reflexivity.
Qed.

(** While the impact frame lies ahead, ticking only moves the frame
    counter, as far as the impact is concerned. *)
Lemma ticks_pending k this a :
  playerAlive (state this) = true ->
  bossCurrentAttack (state this) = Some a ->
  bossAttackHitProcessed (state this) = false ->
  currentFrame (state this) + Z.of_nat k - bossAttackStartFrame (state this)
    < windupFrames a + IMPACT_DELAY_FRAMES ->
  IMPACT_DELAY_FRAMES <= activeFrames a + recoveryFrames a ->
  impact_view (state (ticks k this))
  = (currentFrame (state this) + Z.of_nat k, true, playerShieldZone (state this),
     Some a, bossAttackStartFrame (state this), false,
     blocksPerformed (state this), deathCount (state this), mode (state this)).
Proof.
  intros Halive Hatt Hhit Hlt Hlen. induction k as [| k IH].
  - cbn [ticks Z.of_nat]. unfold impact_view.
    rewrite Halive, Hatt, Hhit, Z.add_0_r. reflexivity.
  - rewrite ticks_succ_r.
    assert (Hk : impact_view (state (ticks k this))
                 = (currentFrame (state this) + Z.of_nat k, true,
                    playerShieldZone (state this), Some a,
                    bossAttackStartFrame (state this), false,
                    blocksPerformed (state this), deathCount (state this),
                    mode (state this))) by (apply IH; lia).
    unfold impact_view in Hk.
    injection Hk as Hf Hal Hsh Hat Hst Hhp Hbl Hde Hmo.
    rewrite (tick_pending (ticks k this) a) by (try assumption; lia).
    rewrite Hf, Hsh, Hst, Hbl, Hde, Hmo.
    replace (Z.of_nat (S k)) with (Z.of_nat k + 1) by lia.
    rewrite Z.add_assoc. reflexivity.
Qed.

(** The catalogue holds one blockable CENTER attack with a wind-up of 100
    frames. *)
Lemma blockable_center_100 a :
  In a RUST_WARDEN_ATTACKS ->
  zone a = ZONE_CENTER -> windupFrames a = 100 -> isBlocking a = true ->
  a = mkAttack "bash_center" ZONE_CENTER 100 40 30 1 true.
Proof.
  intros Hin Hz Hw Hb.
  repeat (destruct Hin as [<- | Hin]; [first [reflexivity | discriminate] |]).
  destruct Hin.
Qed.

(** C5: a blockable CENTER attack of the catalogue with a wind-up of 100
    frames, in flight with its impact pending, is resolved by the tick that
    brings the elapsed frames to 125 and by no earlier tick.  With the
    shield on CENTER that tick counts one block and the player stays alive;
    with the shield on LEFT the player dies in standard mode, while in
    practice mode one death is counted and the player stays alive. *)
Theorem impact_resolved_at_frame_125 (this : CombatSystem) (a : Attack) :
  In a RUST_WARDEN_ATTACKS ->
  zone a = ZONE_CENTER -> windupFrames a = 100 -> isBlocking a = true ->
  playerAlive (state this) = true ->
  bossCurrentAttack (state this) = Some a ->
  bossAttackHitProcessed (state this) = false ->
  currentFrame (state this) - bossAttackStartFrame (state this)
    < 100 + IMPACT_DELAY_FRAMES ->
  let start := bossAttackStartFrame (state this) in
  let n := Z.to_nat (start + 125 - currentFrame (state this)) in
  (forall k, (k < n)%nat ->
     let s := state (ticks k this) in
     bossAttackHitProcessed s = false
     /\ blocksPerformed s = blocksPerformed (state this)
     /\ deathCount s = deathCount (state this)
     /\ playerAlive s = true)
  /\ let s' := state (ticks n this) in
     currentFrame s' - start = 125
     /\ bossAttackHitProcessed s' = true
     /\ (playerShieldZone (state this) = ZONE_CENTER ->
         blocksPerformed s' = blocksPerformed (state this) + 1
         /\ playerAlive s' = true)
     /\ (playerShieldZone (state this) = ZONE_LEFT ->
         (mode (state this) = STANDARD -> playerAlive s' = false)
         /\ (mode (state this) = PRACTICE ->
             deathCount s' = deathCount (state this) + 1
             /\ playerAlive s' = true)).
Proof.
  intros Hin Hz Hw Hb Halive Hatt Hhit Hlt. cbn zeta.
  pose proof (blockable_center_100 a Hin Hz Hw Hb) as Ha.
  unfold IMPACT_DELAY_FRAMES in Hlt.
  assert (Hview : forall k,
             currentFrame (state this) + Z.of_nat k
               - bossAttackStartFrame (state this) < 125 ->
             impact_view (state (ticks k this))
             = (currentFrame (state this) + Z.of_nat k, true,
                playerShieldZone (state this), Some a,
                bossAttackStartFrame (state this), false,
                blocksPerformed (state this), deathCount (state this),
                mode (state this))).
  { intros k Hk. apply ticks_pending; try assumption;
      rewrite Ha; cbn; unfold IMPACT_DELAY_FRAMES; lia. }
  set (n := Z.to_nat _).
  assert (Hn : Z.of_nat n
               = bossAttackStartFrame (state this) + 125 - currentFrame (state this))
    by (unfold n; lia).
  split.
  - intros k Hk. specialize (Hview k ltac:(lia)).
    unfold impact_view in Hview.
    injection Hview as _ Hal _ _ _ Hhp Hbl Hde _. auto.
  - destruct n as [| m]; [lia |].
    specialize (Hview m ltac:(lia)). unfold impact_view in Hview.
    injection Hview as Hf Hal Hsh Hat Hst Hhp Hbl Hde Hmo.
    rewrite ticks_succ_r.
    destruct (tick_impact (ticks m this) a Hal Hat Hhp) as (Hf' & Hhp' & Hres).
    { rewrite Hf, Hst, Hw. unfold IMPACT_DELAY_FRAMES. lia. }
    rewrite Hsh, Hbl, Hde, Hmo in Hres.
    rewrite Hf', Hf.
    split; [lia |]. split; [exact Hhp' |]. split.
    + intros Hc. rewrite Hc, Hz, Hb in Hres. cbn in Hres. tauto.
    + intros Hl. rewrite Hl, Hz in Hres. cbn in Hres.
      destruct Hres as (_ & Hd & Hp).
      split; intros Hm; rewrite Hm in Hp; cbn in Hp; auto.
Qed.

(** ** The reachable part of the parry window *)

Lemma catalogue_windup a : In a RUST_WARDEN_ATTACKS -> 90 <= windupFrames a.
Proof.
  intros Hin.
  repeat (destruct Hin as [<- | Hin]; [cbn; lia |]). destruct Hin.
Qed.

Lemma index_In {A : Type} (l : list A) i x : index l i = Some x -> In x l.
Proof.
  unfold index. destruct (i <? 0); [discriminate |]. apply nth_error_In.
Qed.

Ltac close_pending :=
  intros;
  repeat match goal with
    | H : forall a, ?v = Some a -> _, H0 : ?v = Some ?x |- _ => specialize (H x H0)
    | H : forall a, Some ?x = Some a -> _ |- _ => specialize (H x eq_refl)
    | H : Some _ = Some _ |- _ => injection H as H; subst
    | H : find _ _ = Some _ |- _ => apply find_some in H; destruct H as [H _]
    | H : index _ _ = Some _ |- _ =>
        apply index_In, filter_In in H; destruct H as [H _]
    | H : _ /\ _ |- _ => destruct H
    | H : negb ?b = _ |- _ => destruct b; cbn in H
    end;
  try congruence;
  try (split; [assumption |]; intros; bool_to_Z;
       unfold IMPACT_DELAY_FRAMES in *;
       match goal with
       | H : In _ RUST_WARDEN_ATTACKS |- _ => pose proof (catalogue_windup _ H)
       end;
       first [congruence | lia
             | match goal with
               | H : ?P -> _ < _, Hp : ?P |- _ => specialize (H Hp); lia
               end]).

Ltac pending_phase :=
  unfold pending_impact_within; intros Hinv; open_engine; unfold_private; walk;
  close_pending.

Lemma frame_pending this :
  pending_impact_within 0 (state this) ->
  pending_impact_within 1
    (state (upd (fun s => set_currentFrame (currentFrame s + 1) s) this)).
Proof. pending_phase. Qed.

Lemma processBossAI_pending this :
  pending_impact_within 1 (state this) ->
  pending_impact_within 1 (state (processBossAI this)).
Proof. pending_phase. Qed.

Lemma processAttackCollision_pending this :
  pending_impact_within 1 (state this) ->
  pending_impact_within 0 (state (processAttackCollision this)).
Proof. pending_phase. Qed.

Lemma processPlayerAttack_pending this :
  pending_impact_within 0 (state this) ->
  pending_impact_within 0 (state (processPlayerAttack this)).
Proof. pending_phase. Qed.

Lemma decayStagger_pending this :
  pending_impact_within 0 (state this) ->
  pending_impact_within 0 (state (decayStagger this)).
Proof. pending_phase. Qed.

Lemma processVulnerability_pending this :
  pending_impact_within 0 (state this) ->
  pending_impact_within 0 (state (processVulnerability this)).
Proof. pending_phase. Qed.

Lemma step_pending this c :
  pending_impact_within 0 (state this) ->
  pending_impact_within 0 (state (step this c)).
Proof.
  intros H. destruct c.
  2-6: revert H; unfold_public; pending_phase.
  cbn [step]. unfold tick.
  destruct (negb (playerAlive (state this))); [exact H |]. cbn zeta.
  apply processVulnerability_pending, decayStagger_pending,
    processPlayerAttack_pending, processAttackCollision_pending,
    processBossAI_pending, frame_pending, H.
Qed.

(** In a reachable engine an attack whose impact is pending has not reached
    its impact frame, [windupFrames + IMPACT_DELAY_FRAMES] after its start:
    the tick that gets there resolves the impact. *)
Lemma pending_impact_before_impact_frame this a :
  reachable this ->
  bossCurrentAttack (state this) = Some a ->
  bossAttackHitProcessed (state this) = false ->
  In a RUST_WARDEN_ATTACKS
  /\ currentFrame (state this) - bossAttackStartFrame (state this)
     < windupFrames a + IMPACT_DELAY_FRAMES.
Proof.
  intros H Hatt Hhit.
  assert (Hinv : pending_impact_within 0 (state this)).
  { apply (reachable_ind_state (pending_impact_within 0)); try assumption.
    - intros; unfold pending_impact_within; cbn; discriminate.
    - intros; apply step_pending; assumption. }
  destruct (Hinv a Hatt) as [Hin Hlt]. split; [exact Hin |].
  specialize (Hlt Hhit). lia.
Qed.

(** Hence, along a run, a parry on [bash_center] can only succeed from
    frame 55 to frame 124 after its start: the frames 125 to 139 of the
    window come after the impact has been resolved. *)
Lemma reachable_parry_window this a accuracy :
  reachable this ->
  playerAlive (state this) = true ->
  bossCurrentAttack (state this) = Some a ->
  windupFrames a = 100 -> activeFrames a = 40 ->
  fst (attemptParry (zone a) accuracy this) = true <->
  bossAttackHitProcessed (state this) = false
  /\ 55 <= currentFrame (state this) - bossAttackStartFrame (state this) < 125.
Proof.
  intros H Halive Hatt Hw Ha.
  destruct (bossAttackHitProcessed (state this)) eqn:Hhit.
  - split; [| intros [? _]; discriminate].
    unfold attemptParry. rewrite Halive. cbn [negb].
    destruct this as [[] ? ? ? ?]. cbn in *. subst. cbn. discriminate.
  - pose proof (pending_impact_before_impact_frame this a H Hatt Hhit) as [_ Hlt].
    rewrite (attemptParry_window this a accuracy Halive Hatt Hhit).
    rewrite Hw, Ha. rewrite Hw in Hlt.
    unfold IMPACT_DELAY_FRAMES in Hlt. unfold earlyWindow.
    split; [intros; split; [reflexivity | lia] | intros [_ ?]; lia].
Qed.

(** ** The statements at sample runs *)

Lemma stagger_within_bounds_witness :
  reachable parried_engine
  /\ (0 <= bossStagger (state parried_engine)
      /\ bossStagger (state parried_engine) <= STAGGER_MAX)%Q.
Proof.
  assert (H : reachable parried_engine) by apply reachable_run, reachable_new.
  split; [exact H | exact (stagger_within_bounds parried_engine H)].
Defined.

Lemma vulnerable_boss_has_no_attack_witness :
  reachable vulnerable_engine
  /\ bossVulnerable (state vulnerable_engine) = true
  /\ bossCurrentAttack (state vulnerable_engine) = None.
Proof.
  assert (H : reachable vulnerable_engine) by apply reachable_run, reachable_new.
  assert (Hv : bossVulnerable (state vulnerable_engine) = true)
    by (vm_compute; reflexivity).
  split; [exact H | split; [exact Hv |]].
  exact (vulnerable_boss_has_no_attack vulnerable_engine H Hv).
Defined.

Lemma boss_hp_plus_damage_is_max_witness :
  reachable wounded_engine
  /\ bossMaxHP (state wounded_engine) = 10
  /\ damageDealt (state wounded_engine) = 1
  /\ bossHP (state wounded_engine) + damageDealt (state wounded_engine)
     = bossMaxHP (state wounded_engine).
Proof.
  assert (H : reachable wounded_engine)
    by (apply reachable_run; apply reachable_run, reachable_new).
  assert (Hm : bossMaxHP (state wounded_engine) = 10) by (vm_compute; reflexivity).
  assert (Hd : damageDealt (state wounded_engine) = 1) by (vm_compute; reflexivity).
  split; [exact H |]. split; [exact Hm |]. split; [exact Hd |].
  pose proof (boss_hp_plus_damage_is_max wounded_engine H) as [Hbal _].
  apply Hbal; rewrite ?Hm, ?Hd; lia.
Defined.

Lemma parry_window_55_140_witness :
  playerAlive (state (engaged_engine 55)) = true
  /\ bossCurrentAttack (state (engaged_engine 55)) = Some bash_center
  /\ bossAttackHitProcessed (state (engaged_engine 55)) = false
  /\ currentFrame (state (engaged_engine 55))
     - bossAttackStartFrame (state (engaged_engine 55)) = 55
  /\ fst (attemptParry ZONE_CENTER (1 # 2) (engaged_engine 55)) = true.
Proof.
  assert (Ha : playerAlive (state (engaged_engine 55)) = true)
    by (vm_compute; reflexivity).
  assert (Hb : bossCurrentAttack (state (engaged_engine 55)) = Some bash_center)
    by (vm_compute; reflexivity).
  assert (Hc : bossAttackHitProcessed (state (engaged_engine 55)) = false)
    by (vm_compute; reflexivity).
  assert (Hd : currentFrame (state (engaged_engine 55))
               - bossAttackStartFrame (state (engaged_engine 55)) = 55)
    by (vm_compute; reflexivity).
  repeat (split; [assumption |]).
  apply (proj2 (parry_window_55_140 (engaged_engine 55) bash_center (1 # 2)
                  Ha Hb Hc eq_refl eq_refl)).
  rewrite Hd. lia.
Defined.

(** Along a run the upper part of the window is out of reach: the tick that
    brings the elapsed frames to 125 resolves the impact, after which
    [bossAttackHitProcessed] is set and a parry is refused.  On the engine
    driven by ticks alone, a parry 54, 55, 124, 125, 139 and 140 frames
    after the start of [bash_center] returns: *)
Example parry_along_a_run :
  map (fun n => fst (attemptParry ZONE_CENTER 1 (engaged_engine n)))
    [54; 55; 124; 125; 139; 140]%nat
  = [false; true; true; false; false; false].
Proof. vm_compute. reflexivity. Qed.

Lemma impact_resolved_at_frame_125_witness :
  playerAlive (state (engaged_engine 0)) = true
  /\ bossCurrentAttack (state (engaged_engine 0)) = Some bash_center
  /\ bossAttackHitProcessed (state (engaged_engine 0)) = false
  /\ playerShieldZone (state (engaged_engine 0)) = ZONE_CENTER
  /\ blocksPerformed (state (ticks 125 (engaged_engine 0)))
     = blocksPerformed (state (engaged_engine 0)) + 1
  /\ playerAlive (state (ticks 125 (engaged_engine 0))) = true.
Proof.
  assert (Ha : playerAlive (state (engaged_engine 0)) = true)
    by (vm_compute; reflexivity).
  assert (Hb : bossCurrentAttack (state (engaged_engine 0)) = Some bash_center)
    by (vm_compute; reflexivity).
  assert (Hc : bossAttackHitProcessed (state (engaged_engine 0)) = false)
    by (vm_compute; reflexivity).
  assert (Hd : playerShieldZone (state (engaged_engine 0)) = ZONE_CENTER)
    by (vm_compute; reflexivity).
  assert (He : currentFrame (state (engaged_engine 0))
               - bossAttackStartFrame (state (engaged_engine 0))
               < 100 + IMPACT_DELAY_FRAMES)
    by (vm_compute; reflexivity).
  assert (Hin : In bash_center RUST_WARDEN_ATTACKS)
    by (right; left; reflexivity).
  assert (Hn : Z.to_nat (bossAttackStartFrame (state (engaged_engine 0)) + 125
                         - currentFrame (state (engaged_engine 0))) = 125%nat)
    by (vm_compute; reflexivity).
  pose proof (proj1 (proj2 (proj2 (proj2
                (impact_resolved_at_frame_125 (engaged_engine 0) bash_center
                   Hin eq_refl eq_refl eq_refl Ha Hb Hc He)))) Hd) as Hblock.
  rewrite Hn in Hblock.
  split; [exact Ha |]. split; [exact Hb |]. split; [exact Hc |].
  split; [exact Hd |]. exact Hblock.
Defined.

Lemma tick_advances_frame_by_one_witness :
  (playerAlive (state fresh_engine) = true
   /\ currentFrame (state (tick fresh_engine)) = currentFrame (state fresh_engine) + 1)
  /\ (playerAlive (state dead_engine) = false /\ tick dead_engine = dead_engine)
  /\ (MoveShield ZONE_RIGHT <> Tick
      /\ currentFrame (state (step fresh_engine (MoveShield ZONE_RIGHT)))
         = currentFrame (state fresh_engine)).
Proof.
  assert (Ha : playerAlive (state fresh_engine) = true) by reflexivity.
  assert (Hd : playerAlive (state dead_engine) = false) by (vm_compute; reflexivity).
  assert (Hc : MoveShield ZONE_RIGHT <> Tick) by discriminate.
  split; [split; [exact Ha |] | split; [split; [exact Hd |] | split; [exact Hc |]]].
  - exact (proj1 (tick_advances_frame_by_one fresh_engine) Ha).
  - exact (proj1 (proj2 (tick_advances_frame_by_one dead_engine)) Hd).
  - exact (proj2 (proj2 (tick_advances_frame_by_one fresh_engine)) _ Hc).
Defined.

Lemma attemptParry_logs_while_alive_witness :
  (playerAlive (state fresh_engine) = true
   /\ getInputLog (snd (attemptParry ZONE_LEFT 1 fresh_engine))
      = [mkInputEvent 0 InputType.parry (Some ZONE_LEFT) (Some 1%Q)])
  /\ (playerAlive (state dead_engine) = false
      /\ attemptParry ZONE_LEFT 1 dead_engine = (false, dead_engine)).
Proof.
  assert (Ha : playerAlive (state fresh_engine) = true) by reflexivity.
  assert (Hd : playerAlive (state dead_engine) = false) by (vm_compute; reflexivity).
  split; (split; [assumption |]).
  - exact (proj1 (attemptParry_logs_while_alive fresh_engine ZONE_LEFT 1) Ha).
  - exact (proj2 (attemptParry_logs_while_alive dead_engine ZONE_LEFT 1) Hd).
Defined.

Lemma constructor_accepts_nonpositive_hp_witness :
  -5 <= 0
  /\ exists this,
       new_CombatSystem 0 1 (-5) STANDARD = Normal this
       /\ bossHP (state this) = -5
       /\ bossMaxHP (state this) = -5
       /\ isBossDefeated this = true.
Proof.
  assert (H : -5 <= 0) by lia.
  split; [exact H | exact (constructor_accepts_nonpositive_hp 0 1 (-5) STANDARD H)].
Defined.

(** ** Where the specification departs from the code *)

(** C7 as stated fails: a maximum of 0 is accepted without any error. *)
Lemma constructor_does_not_throw :
  ~ exists message, new_CombatSystem 0 1 0 STANDARD = Throw message.
Proof. intros [message H]. discriminate H. Qed.

(** C8 as stated fails: on the dead engine a parry attempt is not logged. *)
Lemma attemptParry_dead_not_logged :
  reachable dead_engine
  /\ getInputLog (snd (attemptParry ZONE_CENTER 1 dead_engine))
     = getInputLog dead_engine
  /\ getInputLog (snd (attemptParry ZONE_CENTER 1 dead_engine))
     <> (getInputLog dead_engine
         ++ [mkInputEvent (currentFrame (state dead_engine)) InputType.parry
               (Some ZONE_CENTER) (Some 1%Q)])%list.
Proof.
  split; [apply reachable_ticks, reachable_new |].
  split; [vm_compute; reflexivity |].
  vm_compute. discriminate.
Qed.

(** C10 as stated fails: built with a maximum of 2^53 + 2, the boss is left
    with 2^53 hit points by the first strike, because 2^53 + 1 is not a
    double; the damage dealt is 1, and the two no longer add up to the
    maximum. *)
Lemma boss_hp_balance_fails_beyond_2_53 :
  reachable overflowing_engine
  /\ bossMaxHP (state overflowing_engine) = 2 ^ 53 + 2
  /\ damageDealt (state overflowing_engine) = 1
  /\ bossHP (state overflowing_engine) = 2 ^ 53
  /\ bossHP (state overflowing_engine) + damageDealt (state overflowing_engine)
     <> bossMaxHP (state overflowing_engine).
Proof.
  split; [apply reachable_run, reachable_new |].
  split; [vm_compute; reflexivity |].
  split; [vm_compute; reflexivity |].
  split; [vm_compute; reflexivity |].
  vm_compute. discriminate.
Qed.

(** ** The phases of a tick, one after the other *)

(** A property that holds before a tick holds after it once each phase
    carries it to the next; the frame phase may rely on the player being
    alive, which is what lets the tick proceed. *)
Lemma tick_phases (P Pf Pa Pc Pp Pd : CombatState -> Prop) :
  (forall this, playerAlive (state this) = true -> P (state this) ->
     Pf (state (upd (fun s => set_currentFrame (currentFrame s + 1) s) this))) ->
  (forall this, Pf (state this) -> Pa (state (processBossAI this))) ->
  (forall this, Pa (state this) -> Pc (state (processAttackCollision this))) ->
  (forall this, Pc (state this) -> Pp (state (processPlayerAttack this))) ->
  (forall this, Pp (state this) -> Pd (state (decayStagger this))) ->
  (forall this, Pd (state this) -> P (state (processVulnerability this))) ->
  forall this, P (state this) -> P (state (tick this)).
Proof.
  intros Hframe Hai Hcol Hatt Hdecay Hvul this H. unfold tick.
  destruct (playerAlive (state this)) eqn:Halive; cbn [negb]; [| exact H].
  cbn zeta. apply Hvul, Hdecay, Hatt, Hcol, Hai, Hframe; assumption.
Qed.

Lemma step_phases (P Pf Pa Pc Pp Pd : CombatState -> Prop) :
  (forall this, playerAlive (state this) = true -> P (state this) ->
     Pf (state (upd (fun s => set_currentFrame (currentFrame s + 1) s) this))) ->
  (forall this, Pf (state this) -> Pa (state (processBossAI this))) ->
  (forall this, Pa (state this) -> Pc (state (processAttackCollision this))) ->
  (forall this, Pc (state this) -> Pp (state (processPlayerAttack this))) ->
  (forall this, Pp (state this) -> Pd (state (decayStagger this))) ->
  (forall this, Pd (state this) -> P (state (processVulnerability this))) ->
  (forall this c, c <> Tick -> P (state this) -> P (state (step this c))) ->
  forall this c, P (state this) -> P (state (step this c)).
Proof.
  intros Hframe Hai Hcol Hatt Hdecay Hvul Hcmd this c H.
  destruct c; try (apply Hcmd; [discriminate | exact H]).
  cbn [step]. apply (tick_phases P Pf Pa Pc Pp Pd); assumption.
Qed.

(** ** Mode, deaths and the end of a run *)

Lemma step_keeps_mode m this c : mode (state this) = m -> mode (state (step this c)) = m.
Proof.
  revert this c. apply (step_keeps (fun s => mode s = m)).
  7: intros this c Hc Hinv; open_engine; destruct c; try congruence;
     unfold_public.
  all: intros; try open_engine; unfold_private; walk; assumption.
Qed.

Lemma step_keeps_desperation this c :
  bossDesperation (state this) = false ->
  bossDesperation (state (step this c)) = false.
Proof.
  revert this c. apply (step_keeps (fun s => bossDesperation s = false)).
  7: intros this c Hc Hinv; open_engine; destruct c; try congruence;
     unfold_public.
  all: intros; try open_engine; unfold_private; walk; congruence.
Qed.

Lemma desperation_unreachable this :
  reachable this -> bossDesperation (state this) = false.
Proof.
  intros H.
  apply (reachable_ind_state (fun s => bossDesperation s = false)); try assumption.
  - reflexivity.
  - intros; apply step_keeps_desperation; assumption.
Qed.

Ltac close_deaths :=
  intros;
  repeat match goal with
    | H : _ /\ _ |- _ => destruct H
    | H : context [match ?m with STANDARD => _ | PRACTICE => _ end] |- _ =>
        destruct m eqn:?; cbn in *
    | |- context [match ?m with STANDARD => _ | PRACTICE => _ end] =>
        destruct m eqn:?; cbn in *
    | H : context [if ?b then 0 else 1] |- _ => destruct b eqn:?; cbn in *
    | |- context [if ?b then 0 else 1] => destruct b eqn:?; cbn in *
    end;
  try (split; [| assumption]);
  first [assumption | congruence | lia].

Lemma step_deaths this c :
  deaths_match_mode (state this) -> deaths_match_mode (state (step this c)).
Proof.
  revert this c.
  apply (step_phases deaths_match_mode
           (fun s => deaths_match_mode s /\ playerAlive s = true)
           (fun s => deaths_match_mode s /\ playerAlive s = true)
           deaths_match_mode deaths_match_mode deaths_match_mode);
    unfold deaths_match_mode.
  7: intros this c Hc Hinv; open_engine; destruct c; try congruence;
     unfold_public.
  all: intros; try open_engine; unfold_private; walk; close_deaths.
Qed.

Lemma deaths_match_mode_reachable this :
  reachable this -> deaths_match_mode (state this).
Proof.
  intros H. apply (reachable_ind_state deaths_match_mode); try assumption.
  - intros now seed hp m. unfold deaths_match_mode. destruct m; reflexivity.
  - intros; apply step_deaths; assumption.
Qed.

Lemma step_keeps_dead this c :
  playerAlive (state this) = false -> playerAlive (state (step this c)) = false.
Proof.
  revert this c. apply (step_keeps (fun s => playerAlive s = false)).
  7: intros this c Hc Hinv; open_engine; destruct c; try congruence;
     unfold_public.
  all: intros; try open_engine; unfold_private; walk; congruence.
Qed.

(** Hit points at or below zero stay there: damage is positive and
    rounding keeps the sign. *)
Lemma step_bossHP_nonpos this c :
  bossHP (state this) <= 0 -> bossHP (state (step this c)) <= 0.
Proof.
  revert this c. apply (step_keeps (fun s => bossHP s <= 0)).
  7: intros this c Hc Hinv; open_engine; destruct c; try congruence;
     unfold_public.
  all: intros; try open_engine; unfold_private; walk;
    first [assumption
          | apply round53_nonpos;
            unfold SAFE_ATTACK_DAMAGE, CRITICAL_DAMAGE; lia].
Qed.

(** X1: in practice mode the player is alive in every reachable state. *)
Theorem practice_player_never_dies (this : CombatSystem) :
  reachable this ->
  mode (state this) = PRACTICE -> playerAlive (state this) = true.
Proof.
  intros H Hm. pose proof (deaths_match_mode_reachable this H) as Hd.
  unfold deaths_match_mode in Hd. rewrite Hm in Hd. exact Hd.
Qed.

(** X2: in standard mode the death counter is 0 while the player is alive
    and 1 once the player is dead: the player dies at most once. *)
Theorem standard_death_is_counted_once (this : CombatSystem) :
  reachable this ->
  mode (state this) = STANDARD ->
  deathCount (state this) = if playerAlive (state this) then 0 else 1.
Proof.
  intros H Hm. pose proof (deaths_match_mode_reachable this H) as Hd.
  unfold deaths_match_mode in Hd. rewrite Hm in Hd. exact Hd.
Qed.

(** X3: once the player is dead, no call changes anything in the engine:
    the tick and the three player commands return at once, and the two
    practice commands are refused because a dead player means standard
    mode. *)
Theorem dead_engine_ignores_every_call (this : CombatSystem) (c : Call) :
  reachable this ->
  playerAlive (state this) = false ->
  step this c = this.
Proof.
  intros H Hdead.
  assert (Hm : mode (state this) = STANDARD).
  { pose proof (deaths_match_mode_reachable this H) as Hd.
    unfold deaths_match_mode in Hd.
    destruct (mode (state this)); [reflexivity | congruence]. }
  destruct c; cbn [step]; unfold_public; rewrite ?Hdead, ?Hm; reflexivity.
Qed.

Lemma attemptParry_keeps_hp this zone0 accuracy :
  bossDesperation (state this) = false ->
  bossHP (state (snd (attemptParry zone0 accuracy this))) = bossHP (state this)
  /\ damageDealt (state (snd (attemptParry zone0 accuracy this)))
     = damageDealt (state this).
Proof.
  intros Hd. open_engine. subst. unfold_public. unfold_private.
  walk; first [split; reflexivity | congruence].
Qed.

(** X4: [bossDesperation] is false in every reachable state, so a parry
    never costs the boss hit points: the critical-damage branch of
    [handleParry] is dead code. *)
Theorem parry_never_damages_boss
  (this : CombatSystem) (zone0 : AttackZone) (accuracy : Q) :
  reachable this ->
  bossDesperation (state this) = false
  /\ bossHP (state (snd (attemptParry zone0 accuracy this))) = bossHP (state this)
  /\ damageDealt (state (snd (attemptParry zone0 accuracy this)))
     = damageDealt (state this).
Proof.
  intros H. pose proof (desperation_unreachable this H) as Hd.
  split; [exact Hd | apply attemptParry_keeps_hp; exact Hd].
Qed.

(** X5: a run that is over stays over, whatever is called next: a dead
    player stays dead, the boss's hit points never go up, and the mode is
    fixed. *)
Theorem run_over_is_final (this : CombatSystem) (c : Call) :
  isRunOver this = true -> isRunOver (step this c) = true.
Proof.
  unfold isRunOver, isBossDefeated. intros Hover.
  rewrite (step_keeps_mode (mode (state this)) this c eq_refl).
  pose proof (step_bossHP_nonpos this c) as Hhp.
  destruct (GameMode_eqb (mode (state this)) PRACTICE).
  - apply Z.leb_le in Hover. apply Z.leb_le. auto.
  - apply orb_true_iff in Hover. apply orb_true_iff.
    destruct Hover as [Hdead | Hdef].
    + left. apply negb_true_iff in Hdead.
      rewrite (step_keeps_dead this c Hdead). reflexivity.
    + right. apply Z.leb_le in Hdef. apply Z.leb_le. auto.
Qed.

(** ** The three timers *)

Lemma catalogue_frames a :
  In a RUST_WARDEN_ATTACKS ->
  90 <= windupFrames a <= 120
  /\ 30 <= activeFrames a <= 45
  /\ 30 <= recoveryFrames a <= 120.
Proof.
  intros Hin.
  repeat (destruct Hin as [<- | Hin]; [cbn; lia |]). destruct Hin.
Qed.

Ltac use_premises :=
  repeat match goal with
    | H : forall a, ?v = Some a -> _, H0 : ?v = Some ?x |- _ => specialize (H x H0)
    | H : forall a, Some ?x = Some a -> _ |- _ => specialize (H x eq_refl)
    | H : forall a, None = Some a -> _ |- _ => clear H
    | H : ?b = true -> _, H0 : ?b = true |- _ => specialize (H H0)
    | H : true = true -> _ |- _ => specialize (H eq_refl)
    | H : false = true -> _ |- _ => clear H
    | H : Some _ = Some _ |- _ => injection H as H; subst
    | H : find _ _ = Some _ |- _ => apply find_some in H; destruct H as [H _]
    | H : index _ _ = Some _ |- _ =>
        apply index_In, filter_In in H; destruct H as [H _]
    | H : _ /\ _ |- _ => destruct H
    | H : _ || _ = false |- _ => apply orb_false_iff in H; destruct H
    | H : negb ?b = _ |- _ => destruct b; cbn in H
    end.

Ltac close_timer :=
  intros; use_premises; bool_to_Z;
  unfold VULNERABILITY_DURATION_FRAMES, IMPACT_DELAY_FRAMES in *;
  repeat match goal with
    | H : In _ RUST_WARDEN_ATTACKS |- _ =>
        pose proof (catalogue_frames _ H); revert H
    end;
  intros;
  try congruence;
  repeat split; first [assumption | congruence | lia].

Ltac timer_phase P :=
  unfold P; intros Hinv; open_engine; unfold_private; walk; close_timer.

Section AttackTimer.

Lemma frame_attack this :
  attack_within 0 (state this) ->
  attack_within 1
    (state (upd (fun s => set_currentFrame (currentFrame s + 1) s) this)).
Proof. timer_phase attack_within. Qed.

Lemma processBossAI_attack this :
  attack_within 1 (state this) -> attack_within 1 (state (processBossAI this)).
Proof. timer_phase attack_within. Qed.

Lemma processAttackCollision_attack this :
  attack_within 1 (state this) ->
  attack_within 0 (state (processAttackCollision this)).
Proof. timer_phase attack_within. Qed.

Lemma processPlayerAttack_attack this :
  attack_within 0 (state this) ->
  attack_within 0 (state (processPlayerAttack this)).
Proof. timer_phase attack_within. Qed.

Lemma decayStagger_attack this :
  attack_within 0 (state this) -> attack_within 0 (state (decayStagger this)).
Proof. timer_phase attack_within. Qed.

Lemma processVulnerability_attack this :
  attack_within 0 (state this) ->
  attack_within 0 (state (processVulnerability this)).
Proof. timer_phase attack_within. Qed.

Lemma step_attack this c :
  attack_within 0 (state this) -> attack_within 0 (state (step this c)).
Proof.
  revert this c.
  apply (step_phases (attack_within 0) (attack_within 1) (attack_within 1)
           (attack_within 0) (attack_within 0) (attack_within 0)).
  - intros this _. apply frame_attack.
  - apply processBossAI_attack.
  - apply processAttackCollision_attack.
  - apply processPlayerAttack_attack.
  - apply decayStagger_attack.
  - apply processVulnerability_attack.
  - intros this c Hc. destruct c; try congruence;
      unfold_public; timer_phase attack_within.
Qed.

End AttackTimer.

Section VulnerabilityTimer.

Lemma frame_vulnerable this :
  vulnerable_within 0 (state this) ->
  vulnerable_within 1
    (state (upd (fun s => set_currentFrame (currentFrame s + 1) s) this)).
Proof. timer_phase vulnerable_within. Qed.

Lemma processBossAI_vulnerable_within this :
  vulnerable_within 1 (state this) ->
  vulnerable_within 1 (state (processBossAI this)).
Proof. timer_phase vulnerable_within. Qed.

Lemma processAttackCollision_vulnerable_within this :
  vulnerable_within 1 (state this) ->
  vulnerable_within 1 (state (processAttackCollision this)).
Proof. timer_phase vulnerable_within. Qed.

Lemma processPlayerAttack_vulnerable_within this :
  vulnerable_within 1 (state this) ->
  vulnerable_within 1 (state (processPlayerAttack this)).
Proof. timer_phase vulnerable_within. Qed.

Lemma decayStagger_vulnerable_within this :
  vulnerable_within 1 (state this) ->
  vulnerable_within 1 (state (decayStagger this)).
Proof. timer_phase vulnerable_within. Qed.

Lemma processVulnerability_vulnerable_within this :
  vulnerable_within 1 (state this) ->
  vulnerable_within 0 (state (processVulnerability this)).
Proof. timer_phase vulnerable_within. Qed.

Lemma step_vulnerable_within this c :
  vulnerable_within 0 (state this) -> vulnerable_within 0 (state (step this c)).
Proof.
  revert this c.
  apply (step_phases (vulnerable_within 0) (vulnerable_within 1)
           (vulnerable_within 1) (vulnerable_within 1) (vulnerable_within 1)
           (vulnerable_within 1)).
  - intros this _. apply frame_vulnerable.
  - apply processBossAI_vulnerable_within.
  - apply processAttackCollision_vulnerable_within.
  - apply processPlayerAttack_vulnerable_within.
  - apply decayStagger_vulnerable_within.
  - apply processVulnerability_vulnerable_within.
  - intros this c Hc. destruct c; try congruence;
      unfold_public; timer_phase vulnerable_within.
Qed.

End VulnerabilityTimer.

Section StrikeTimer.

Lemma frame_strike this :
  strike_within 0 (state this) ->
  strike_within 1
    (state (upd (fun s => set_currentFrame (currentFrame s + 1) s) this)).
Proof. timer_phase strike_within. Qed.

Lemma processBossAI_strike this :
  strike_within 1 (state this) -> strike_within 1 (state (processBossAI this)).
Proof. timer_phase strike_within. Qed.

Lemma processAttackCollision_strike this :
  strike_within 1 (state this) ->
  strike_within 1 (state (processAttackCollision this)).
Proof. timer_phase strike_within. Qed.

Lemma processPlayerAttack_strike this :
  strike_within 1 (state this) ->
  strike_within 0 (state (processPlayerAttack this)).
Proof. timer_phase strike_within. Qed.

Lemma decayStagger_strike this :
  strike_within 0 (state this) -> strike_within 0 (state (decayStagger this)).
Proof. timer_phase strike_within. Qed.

Lemma processVulnerability_strike this :
  strike_within 0 (state this) ->
  strike_within 0 (state (processVulnerability this)).
Proof. timer_phase strike_within. Qed.

Lemma step_strike this c :
  strike_within 0 (state this) -> strike_within 0 (state (step this c)).
Proof.
  revert this c.
  apply (step_phases (strike_within 0) (strike_within 1) (strike_within 1)
           (strike_within 1) (strike_within 0) (strike_within 0)).
  - intros this _. apply frame_strike.
  - apply processBossAI_strike.
  - apply processAttackCollision_strike.
  - apply processPlayerAttack_strike.
  - apply decayStagger_strike.
  - apply processVulnerability_strike.
  - intros this c Hc. destruct c; try congruence;
      unfold_public; timer_phase strike_within.
Qed.

End StrikeTimer.

Lemma timers_reachable this :
  reachable this ->
  attack_within 0 (state this)
  /\ vulnerable_within 0 (state this)
  /\ strike_within 0 (state this).
Proof.
  intros H. split; [| split].
  - apply (reachable_ind_state (attack_within 0)); try assumption.
    + intros; unfold attack_within; cbn; discriminate.
    + intros; apply step_attack; assumption.
  - apply (reachable_ind_state (vulnerable_within 0)); try assumption.
    + intros; unfold vulnerable_within; cbn; discriminate.
    + intros; apply step_vulnerable_within; assumption.
  - apply (reachable_ind_state (strike_within 0)); try assumption.
    + intros; unfold strike_within; cbn; discriminate.
    + intros; apply step_strike; assumption.
Qed.

(** X6: in every reachable state the attack in flight is an entry of the
    catalogue, started at or before the current frame and younger than its
    wind-up, active and recovery frames together: the tick that reaches
    that total clears it. *)
Theorem attack_in_flight_is_catalogued_and_timely (this : CombatSystem) (a : Attack) :
  reachable this ->
  bossCurrentAttack (state this) = Some a ->
  In a RUST_WARDEN_ATTACKS
  /\ 0 <= currentFrame (state this) - bossAttackStartFrame (state this)
     < windupFrames a + activeFrames a + recoveryFrames a.
Proof.
  intros H Hatt. destruct (timers_reachable this H) as (Ha & _ & _).
  destruct (Ha a Hatt) as [Hin Hlt]. split; [exact Hin | lia].
Qed.

(** X7: while the boss is vulnerable in a reachable state, the stagger
    meter reads exactly 0 and the vulnerability is less than
    [VULNERABILITY_DURATION_FRAMES] (180) frames old. *)
Theorem vulnerability_is_short_and_unstaggered (this : CombatSystem) :
  reachable this ->
  bossVulnerable (state this) = true ->
  bossStagger (state this) = 0%Q
  /\ 0 <= currentFrame (state this) - bossVulnerableFrame (state this)
     < VULNERABILITY_DURATION_FRAMES.
Proof.
  intros H Hv. destruct (timers_reachable this H) as (_ & Hvul & _).
  destruct (Hvul Hv) as (_ & Hs & Hlt). split; [exact Hs | lia].
Qed.

(** X8: a strike in progress in a reachable state is less than 20 frames
    old: [playerAttacking] is cleared by the tick that reaches frame 20. *)
Theorem strike_lasts_under_twenty_frames (this : CombatSystem) :
  reachable this ->
  playerAttacking (state this) = true ->
  0 <= currentFrame (state this) - playerAttackFrame (state this) < 20.
Proof.
  intros H Hp. destruct (timers_reachable this H) as (_ & _ & Hs).
  specialize (Hs Hp). lia.
Qed.

(** ** Parries along a run *)

(** X9: in a reachable state an attack whose impact is still pending has
    not reached its impact frame, [windupFrames + IMPACT_DELAY_FRAMES]
    frames after its start: the tick that gets there resolves the impact as
    a block or a hit. *)
Theorem pending_impact_lies_ahead (this : CombatSystem) (a : Attack) :
  reachable this ->
  bossCurrentAttack (state this) = Some a ->
  bossAttackHitProcessed (state this) = false ->
  currentFrame (state this) - bossAttackStartFrame (state this)
    < windupFrames a + IMPACT_DELAY_FRAMES.
Proof.
  intros H Hatt Hhit.
  exact (proj2 (pending_impact_before_impact_frame this a H Hatt Hhit)).
Qed.

(** X10: along a run the parry window of every attack is the 70 frames
    from [windupFrames - 45] up to, not including, the impact frame
    [windupFrames + 25]: with the player alive, a parry aimed at the zone of
    the attack in flight succeeds exactly when the impact is pending and the
    elapsed frames lie in that range.  The upper end [windupFrames +
    activeFrames] written in [attemptParry] is never the binding one. *)
Theorem effective_parry_window (this : CombatSystem) (a : Attack) (accuracy : Q) :
  reachable this ->
  playerAlive (state this) = true ->
  bossCurrentAttack (state this) = Some a ->
  fst (attemptParry (zone a) accuracy this) = true <->
  bossAttackHitProcessed (state this) = false
  /\ windupFrames a - earlyWindow
       <= currentFrame (state this) - bossAttackStartFrame (state this)
       < windupFrames a + IMPACT_DELAY_FRAMES.
Proof.
  intros H Halive Hatt.
  destruct (bossAttackHitProcessed (state this)) eqn:Hhit.
  - split; [| intros [? _]; discriminate].
    unfold attemptParry. rewrite Halive. cbn [negb].
    destruct this as [[] ? ? ? ?]. cbn in *. subst. cbn. discriminate.
  - pose proof (pending_impact_before_impact_frame this a H Hatt Hhit)
      as [Hin Hlt].
    pose proof (catalogue_frames a Hin) as (_ & Hact & _).
    rewrite (attemptParry_window this a accuracy Halive Hatt Hhit).
    unfold IMPACT_DELAY_FRAMES in *.
    split; [intros; split; [reflexivity | lia] | intros [_ ?]; lia].
Qed.

(** X11: a parry attempt that returns false changes nothing but the input
    log: the state, the generator and the queue of forced attacks are as
    before.  One that returns true marks the impact as processed and counts
    one parry. *)
Theorem parry_outcome_effects
  (this : CombatSystem) (zone0 : AttackZone) (accuracy : Q) :
  let r := attemptParry zone0 accuracy this in
  rngState (snd r) = rngState this
  /\ forcedAttackQueue (snd r) = forcedAttackQueue this
  /\ if fst r
     then bossAttackHitProcessed (state (snd r)) = true
          /\ perfectParries (state (snd r)) = perfectParries (state this) + 1
          /\ blocksPerformed (state (snd r)) = blocksPerformed (state this)
          /\ deathCount (state (snd r)) = deathCount (state this)
          /\ playerAlive (state (snd r)) = true
     else state (snd r) = state this.
Proof.
  cbn zeta. open_engine. unfold_public. unfold_private.
  walk;
    try match goal with
        | H : negb ?b = false |- _ => destruct b; [| discriminate H]
        end;
    repeat split; first [reflexivity | congruence].
Qed.

(** ** The generator along a run *)

Ltac same_field := intros; open_engine; unfold_private; walk; reflexivity.

Lemma processAttackCollision_rng this :
  rngState (processAttackCollision this) = rngState this.
Proof. same_field. Qed.

Lemma processPlayerAttack_rng this :
  rngState (processPlayerAttack this) = rngState this.
Proof. same_field. Qed.

Lemma decayStagger_rng this : rngState (decayStagger this) = rngState this.
Proof. same_field. Qed.

Lemma processVulnerability_rng this :
  rngState (processVulnerability this) = rngState this.
Proof. same_field. Qed.

Lemma processBossAI_rng this :
  let s := rngState this in
  (truthy (bossCurrentAttack (state this)) || bossVulnerable (state this) = true ->
   rngState (processBossAI this) = s)
  /\ (rngState (processBossAI this) = s
      \/ rngState (processBossAI this) = rng_state s
      \/ rngState (processBossAI this) = rng_state (rng_state s)).
Proof.
  cbn zeta. open_engine. unfold_private. unfold rng. walk;
    (split; [intros; first [reflexivity | congruence] | auto]).
Qed.

(** X12: the commands never advance the generator.  A tick draws from it
    at most twice (the roll, then the choice of the attack), and not at all
    when the player is dead, an attack is in flight or the boss is
    vulnerable. *)
Theorem generator_is_drawn_by_idle_ticks_only (this : CombatSystem) :
  let s := rngState this in
  (forall c, c <> Tick -> rngState (step this c) = s)
  /\ (negb (playerAlive (state this))
      || truthy (bossCurrentAttack (state this))
      || bossVulnerable (state this) = true ->
      rngState (tick this) = s)
  /\ (rngState (tick this) = s
      \/ rngState (tick this) = rng_state s
      \/ rngState (tick this) = rng_state (rng_state s)).
Proof.
  cbn zeta. split; [| split].
  - intros c Hc. open_engine. destruct c; try congruence;
      unfold_public; unfold_private; walk; reflexivity.
  - intros Hidle. unfold tick.
    destruct (negb (playerAlive (state this))) eqn:Hal; [reflexivity |].
    cbn zeta.
    rewrite processVulnerability_rng, decayStagger_rng,
      processPlayerAttack_rng, processAttackCollision_rng.
    cbn [orb] in Hidle.
    destruct (processBossAI_rng
                (upd (fun s => set_currentFrame (currentFrame s + 1) s) this))
      as [Hkeep _].
    rewrite Hkeep; destruct this as [[] ? ? ? ?]; [reflexivity | exact Hidle].
  - unfold tick.
    destruct (negb (playerAlive (state this))); [left; reflexivity |].
    cbn zeta.
    rewrite processVulnerability_rng, decayStagger_rng,
      processPlayerAttack_rng, processAttackCollision_rng.
    destruct (processBossAI_rng
                (upd (fun s => set_currentFrame (currentFrame s + 1) s) this))
      as [_ Hcases].
    destruct this as [[] ? ? ? ?]. exact Hcases.
Qed.

(** ** The counters *)

Lemma processBossAI_counters this :
  counters (state (processBossAI this)) = counters (state this).
Proof. same_field. Qed.

Lemma decayStagger_counters this :
  counters (state (decayStagger this)) = counters (state this).
Proof. same_field. Qed.

Lemma processVulnerability_counters this :
  counters (state (processVulnerability this)) = counters (state this).
Proof. same_field. Qed.

Lemma processAttackCollision_counters this :
  let '(p, b, d, g, h) := counters (state this) in
  counters (state (processAttackCollision this)) = (p, b, d, g, h)
  \/ counters (state (processAttackCollision this)) = (p, b + 1, d, g, h)
  \/ counters (state (processAttackCollision this)) = (p, b, d + 1, g, h).
Proof. open_engine. unfold_private. walk; auto. Qed.

Lemma processPlayerAttack_counters this :
  let '(p, b, d, g, h) := counters (state this) in
  counters (state (processPlayerAttack this)) = (p, b, d, g, h)
  \/ counters (state (processPlayerAttack this))
     = (p, b, d, JSNumber.round53 (g + 1), JSNumber.round53 (h - 1)).
Proof. open_engine. unfold_private. walk; auto. Qed.

Lemma command_counters this c :
  c <> Tick ->
  bossDesperation (state this) = false ->
  let '(p, b, d, g, h) := counters (state this) in
  counters (state (step this c)) = (p, b, d, g, h)
  \/ counters (state (step this c)) = (p + 1, b, d, g, h).
Proof.
  intros Hc Hd. open_engine. subst.
  destruct c; try congruence; unfold_public; unfold_private; walk;
    first [congruence | auto].
Qed.

Lemma tick_counters this :
  let '(p, b, d, g, h) := counters (state this) in
  exists b' d',
    (counters (state (tick this)) = (p, b + b', d + d', g, h)
     \/ counters (state (tick this))
        = (p, b + b', d + d', JSNumber.round53 (g + 1), JSNumber.round53 (h - 1)))
    /\ 0 <= b' /\ 0 <= d' /\ b' + d' <= 1.
Proof.
  unfold tick. destruct (negb (playerAlive (state this))).
  - destruct (counters (state this)) as [[[[p b] d] g] h].
    exists 0, 0. rewrite !Z.add_0_r. repeat split; auto; lia.
  - cbn zeta.
    rewrite processVulnerability_counters, decayStagger_counters.
    set (e0 := upd (fun s => set_currentFrame (currentFrame s + 1) s) this).
    assert (H0 : counters (state e0) = counters (state this))
      by (destruct this as [[] ? ? ? ?]; reflexivity).
    pose proof (processBossAI_counters e0) as H1.
    pose proof (processAttackCollision_counters (processBossAI e0)) as H2.
    pose proof (processPlayerAttack_counters
                  (processAttackCollision (processBossAI e0))) as H3.
    rewrite H1, H0 in H2.
    destruct (counters (state this)) as [[[[p b] d] g] h].
    destruct H2 as [H2 | [H2 | H2]]; rewrite H2 in H3;
      destruct H3 as [H3 | H3]; rewrite H3.
    + exists 0, 0. rewrite !Z.add_0_r. repeat split; auto; lia.
    + exists 0, 0. rewrite !Z.add_0_r. repeat split; auto; lia.
    + exists 1, 0. rewrite !Z.add_0_r. repeat split; auto; lia.
    + exists 1, 0. rewrite !Z.add_0_r. repeat split; auto; lia.
    + exists 0, 1. rewrite !Z.add_0_r. repeat split; auto; lia.
    + exists 0, 1. rewrite !Z.add_0_r. repeat split; auto; lia.
Qed.

(** X13: in a reachable engine no call lowers a counter or moves it by
    more than 1.  Only a parry command moves [perfectParries]; a tick may
    count one block or one death, never both, and may land one point of
    damage, taken from [bossHP]: the two move together as long as both are
    below 2^53 in magnitude, where the rounding of [dealDamageToBoss] is
    exact.  A command changes no counter but [perfectParries]. *)
Theorem counters_move_by_at_most_one (this : CombatSystem) (c : Call) :
  reachable this ->
  let s := state this in
  let s' := state (step this c) in
  0 <= perfectParries s' - perfectParries s <= 1
  /\ 0 <= blocksPerformed s' - blocksPerformed s
  /\ 0 <= deathCount s' - deathCount s
  /\ (blocksPerformed s' - blocksPerformed s) + (deathCount s' - deathCount s) <= 1
  /\ (Z.abs (bossHP s) < 2 ^ 53 -> Z.abs (damageDealt s) < 2 ^ 53 ->
      0 <= damageDealt s' - damageDealt s <= 1
      /\ bossHP s' = bossHP s - (damageDealt s' - damageDealt s))
  /\ (c = Tick -> perfectParries s' = perfectParries s)
  /\ (c <> Tick -> counters s' = (perfectParries s', blocksPerformed s,
                                  deathCount s, damageDealt s, bossHP s)).
Proof.
  intros H. cbn zeta. pose proof (desperation_unreachable this H) as Hd.
  destruct c.
  1: { cbn [step]. pose proof (tick_counters this) as Ht.
       unfold counters in Ht.
       destruct Ht as (b' & d' & Heq & ? & ? & ?).
       destruct Heq as [Heq | Heq]; injection Heq as -> -> -> -> ->.
       all: do 4 (split; [lia |]).
       all: split; [intros Hhp Hdm | split; [reflexivity | congruence]].
       - lia.
       - rewrite (round53_exact (damageDealt (state this) + 1)) by lia.
         rewrite (round53_exact (bossHP (state this) - 1)) by lia.
         lia. }
  all: match goal with
       | |- context [step ?e ?c] =>
           pose proof (command_counters e c ltac:(discriminate) Hd) as Hc;
           set (s' := state (step e c)) in *
       end;
    unfold counters in Hc |- *;
    destruct Hc as [Hc | Hc]; injection Hc as Hp Hb Hdc Hg Hh;
    rewrite Hp, Hb, Hdc, Hg, Hh;
    do 4 (split; [lia |]);
    (split; [intros _ _; lia | split; [discriminate | reflexivity]]).
Qed.

(** ** The input log along a run *)

Lemma processBossAI_log this : inputLog (processBossAI this) = inputLog this.
Proof. same_field. Qed.

Lemma processAttackCollision_log this :
  inputLog (processAttackCollision this) = inputLog this.
Proof. same_field. Qed.

Lemma processPlayerAttack_log this :
  inputLog (processPlayerAttack this) = inputLog this.
Proof. same_field. Qed.

Lemma decayStagger_log this : inputLog (decayStagger this) = inputLog this.
Proof. same_field. Qed.

Lemma processVulnerability_log this :
  inputLog (processVulnerability this) = inputLog this.
Proof. same_field. Qed.

Lemma tick_log this : inputLog (tick this) = inputLog this.
Proof.
  unfold tick. destruct (negb (playerAlive (state this))); [reflexivity |].
  cbn zeta.
  rewrite processVulnerability_log, decayStagger_log, processPlayerAttack_log,
    processAttackCollision_log, processBossAI_log.
  destruct this as [[] ? ? ? ?]. reflexivity.
Qed.

Lemma Call_eq_Tick c : c = Tick \/ c <> Tick.
Proof. destruct c; [left; reflexivity | right; discriminate ..]. Qed.

Lemma command_log this c :
  c <> Tick ->
  inputLog (step this c) = inputLog this
  \/ exists ev,
       inputLog (step this c) = (inputLog this ++ [ev])%list
       /\ ev_frame ev = currentFrame (state this).
Proof.
  intros Hc. open_engine.
  destruct c; try congruence; unfold_public; unfold_private; walk;
    first [left; reflexivity | right; eexists; split; reflexivity].
Qed.

(** X14: the input log is append-only.  A call adds at most one event,
    stamped with the current frame; the tick and the two practice commands
    ([setPracticeAttack], [forceAttack]) add none. *)
Theorem input_log_is_append_only (this : CombatSystem) (c : Call) :
  (exists l,
     getInputLog (step this c) = (getInputLog this ++ l)%list
     /\ (List.length l <= 1)%nat
     /\ Forall (fun ev => ev_frame ev = currentFrame (state this)) l)
  /\ match c with
     | Tick | SetPracticeAttack _ _ | ForceAttack _ =>
         getInputLog (step this c) = getInputLog this
     | _ => True
     end.
Proof.
  unfold getInputLog. split.
  - destruct (Call_eq_Tick c) as [-> | Hc].
    + exists []. cbn [step]. rewrite tick_log, app_nil_r.
      repeat split; [cbn; lia | constructor].
    + destruct (command_log this c Hc) as [Heq | (ev & Heq & Hf)].
      * exists []. rewrite Heq, app_nil_r. repeat split; [cbn; lia | constructor].
      * exists [ev]. rewrite Heq. repeat split; [cbn; lia |].
        constructor; [exact Hf | constructor].
  - destruct c; try exact I.
    + apply tick_log.
    + open_engine. unfold_public. walk; reflexivity.
    + open_engine. unfold_public. unfold_private. walk; reflexivity.
Qed.

Lemma sorted_snoc (l : list Z) (x : Z) :
  StronglySorted Z.le l -> Forall (fun f => f <= x) l ->
  StronglySorted Z.le (l ++ [x]).
Proof.
  induction l as [| a l IH]; intros Hs Hf; cbn.
  - constructor; constructor.
  - inversion Hs as [| ? ? Hs' Ha]; subst.
    inversion Hf as [| ? ? Hax Hf']; subst.
    constructor; [apply IH; assumption |].
    apply Forall_app. split; [exact Ha | constructor; [exact Hax | constructor]].
Qed.

Lemma tick_frame_cases this :
  currentFrame (state (tick this)) = currentFrame (state this)
  \/ currentFrame (state (tick this)) = currentFrame (state this) + 1.
Proof.
  destruct (playerAlive (state this)) eqn:Halive.
  - right. apply tick_alive_frame. exact Halive.
  - left. rewrite (tick_dead this Halive). reflexivity.
Qed.

Lemma step_log_in_order this c : log_in_order this -> log_in_order (step this c).
Proof.
  unfold log_in_order. intros (Hs & Hf & H0).
  destruct (Call_eq_Tick c) as [-> | Hc].
  - cbn [step]. rewrite tick_log. split; [exact Hs |]. split.
    + eapply Forall_impl; [| exact Hf]. cbn beta. intros f Hb.
      destruct (tick_frame_cases this) as [-> | ->]; lia.
    + destruct (tick_frame_cases this) as [-> | ->]; lia.
  - rewrite (command_frame this c Hc).
    destruct (command_log this c Hc) as [-> | (ev & -> & Hev)];
      [repeat split; assumption |].
    rewrite map_app. cbn [map]. rewrite Hev. split; [| split].
    + apply sorted_snoc; [exact Hs |].
      eapply Forall_impl; [| exact Hf]. cbn beta. intros; lia.
    + apply Forall_app. split; [exact Hf |].
      constructor; [lia | constructor].
    + exact H0.
Qed.

(** X15: in every reachable engine the frames stamped on the input log are
    in non-decreasing order and lie between 0 and the current frame: the log
    reads in the order of play. *)
Theorem input_log_is_chronological (this : CombatSystem) :
  reachable this ->
  StronglySorted Z.le (map ev_frame (getInputLog this))
  /\ Forall (fun ev => 0 <= ev_frame ev <= currentFrame (state this))
       (getInputLog this).
Proof.
  intros H. unfold getInputLog.
  assert (Hinv : log_in_order this).
  { induction H.
    - unfold log_in_order. cbn. repeat split; try constructor. lia.
    - apply step_log_in_order. assumption. }
  destruct Hinv as (Hs & Hf & _). split; [exact Hs |].
  apply Forall_map in Hf. exact Hf.
Qed.

(** ** The random choice of an attack *)

Lemma rng_value_le st :
  (0 <= st < 0x7fffffff)%Z ->
  (0 <= rng_value st /\ rng_value st <= 2147483647 # 2147483648)%Q.
Proof.
  intros [H0 H1]. unfold rng_value, JSNumber.fdiv.
  rewrite Zle_Qle in H0.
  assert (H1' : (st <= 2147483646)%Z) by lia.
  rewrite Zle_Qle in H1'.
  set (x := inject_Z st) in *.
  change (inject_Z 0x7fffffff) with (2147483647 # 1)%Q.
  change (inject_Z 2147483646) with (2147483646 # 1)%Q in H1'.
  change (inject_Z 0) with 0%Q in H0.
  unfold Qdiv. change (/ (2147483647 # 1))%Q with (1 # 2147483647)%Q.
  split.
  - apply rnd_nonneg. nra.
  - apply Qle_trans with (inject_Z (2 ^ 53 - 2 ^ 22) * 2 ^ (-1 - 52))%Q;
      [| vm_compute; discriminate].
    apply rnd_le_double; [lia |].
    change (inject_Z (2 ^ 53 - 2 ^ 22) * 2 ^ (-1 - 52))%Q
      with ((9007199250546688 # 1) * (1 # 9007199254740992))%Q.
    nra.
Qed.

Lemma rng_draw_bounds s :
  (0 <= fst (rng s) /\ fst (rng s) <= 2147483647 # 2147483648)%Q.
Proof.
  unfold rng. cbn [fst]. apply rng_value_le.
  pose proof (rng_state_bounds s). pose proof (rng_state_not_ones s).
  change 0x7fffffff with 2147483647 in *. change (2 ^ 31) with 2147483648 in *.
  lia.
Qed.

(** A draw times a catalogue-sized length, rounded and floored, is an index
    below that length: the product never rounds up to the length itself. *)
Lemma random_index_in_range (v : Q) (n : nat) :
  (0 <= v /\ v <= 2147483647 # 2147483648)%Q ->
  (1 <= n <= 5)%nat ->
  0 <= JSNumber.floor (JSNumber.fmul v (inject_Z (Z.of_nat n))) < Z.of_nat n.
Proof.
  intros [Hv0 Hv1] Hn. unfold JSNumber.floor, JSNumber.fmul.
  assert (Hcases : n = 1%nat \/ n = 2%nat \/ n = 3%nat \/ n = 4%nat \/ n = 5%nat)
    by lia.
  split.
  - change 0 with (Qfloor 0). apply Qfloor_resp_le. apply rnd_nonneg.
    apply Qmult_le_0_compat; [exact Hv0 |].
    change 0%Q with (inject_Z 0). rewrite <- Zle_Qle. lia.
  - rewrite Zlt_Qlt.
    eapply Qle_lt_trans; [apply Qfloor_le |].
    destruct Hcases as [-> | [-> | [-> | [-> | ->]]]]; cbn [Z.of_nat Pos.of_succ_nat Pos.succ].
    + apply Qle_lt_trans with (inject_Z (2 ^ 53 - 2 ^ 22) * 2 ^ (-1 - 52))%Q;
        [| vm_compute; reflexivity].
      apply rnd_le_double; [lia |].
      change (inject_Z (2 ^ 53 - 2 ^ 22) * 2 ^ (-1 - 52))%Q
        with ((9007199250546688 # 1) * (1 # 9007199254740992))%Q.
      change (inject_Z 1) with 1%Q. nra.
    + apply Qle_lt_trans with (inject_Z (2 ^ 53 - 2 ^ 22) * 2 ^ (0 - 52))%Q;
        [| vm_compute; reflexivity].
      apply rnd_le_double; [lia |].
      change (inject_Z (2 ^ 53 - 2 ^ 22) * 2 ^ (0 - 52))%Q
        with ((9007199250546688 # 1) * (1 # 4503599627370496))%Q.
      change (inject_Z 2) with 2%Q. nra.
    + apply Qle_lt_trans
        with (inject_Z (3 * (2 ^ 31 - 1) * 2 ^ 20) * 2 ^ (1 - 52))%Q;
        [| vm_compute; reflexivity].
      apply rnd_le_double; [lia |].
      change (inject_Z (3 * (2 ^ 31 - 1) * 2 ^ 20) * 2 ^ (1 - 52))%Q
        with ((6755399437910016 # 1) * (1 # 2251799813685248))%Q.
      change (inject_Z 3) with 3%Q. nra.
    + apply Qle_lt_trans with (inject_Z (2 ^ 53 - 2 ^ 22) * 2 ^ (1 - 52))%Q;
        [| vm_compute; reflexivity].
      apply rnd_le_double; [lia |].
      change (inject_Z (2 ^ 53 - 2 ^ 22) * 2 ^ (1 - 52))%Q
        with ((9007199250546688 # 1) * (1 # 2251799813685248))%Q.
      change (inject_Z 4) with 4%Q. nra.
    + apply Qle_lt_trans
        with (inject_Z (5 * (2 ^ 31 - 1) * 2 ^ 19) * 2 ^ (2 - 52))%Q;
        [| vm_compute; reflexivity].
      apply rnd_le_double; [lia |].
      change (inject_Z (5 * (2 ^ 31 - 1) * 2 ^ 19) * 2 ^ (2 - 52))%Q
        with ((5629499531591680 # 1) * (1 # 1125899906842624))%Q.
      change (inject_Z 5) with 5%Q. nra.
Qed.

Lemma index_in_range {A : Type} (l : list A) (i : Z) :
  0 <= i < Z.of_nat (List.length l) -> exists x, index l i = Some x /\ In x l.
Proof.
  intros Hi. unfold index.
  destruct (Z.ltb_spec i 0) as [? | _]; [lia |].
  destruct (nth_error l (Z.to_nat i)) as [x |] eqn:Hnth.
  - exists x. split; [reflexivity | eapply nth_error_In; exact Hnth].
  - exfalso. apply nth_error_None in Hnth. lia.
Qed.

(** X16: [startBossAttack] never leaves the boss with an undefined attack.
    When the pool of available attacks is not empty, the attack it starts
    is an entry of that pool (the whole catalogue in standard mode, the
    enabled entries in practice mode), started at the current frame with
    its impact pending: the computed index [Math.floor(rng() * length)]
    always falls inside the pool.  When the pool is empty it does nothing. *)
Theorem random_attack_is_always_defined (this : CombatSystem) :
  let available :=
    filter (fun a => GameMode_eqb (mode (state this)) STANDARD
                     || set_has (id a) (enabledAttacks (state this)))
           RUST_WARDEN_ATTACKS in
  match available with
  | [] => startBossAttack this = this
  | _ :: _ =>
      exists a,
        In a available
        /\ bossCurrentAttack (state (startBossAttack this)) = Some a
        /\ bossAttackStartFrame (state (startBossAttack this))
           = currentFrame (state this)
        /\ bossAttackHitProcessed (state (startBossAttack this)) = false
        /\ rngState (startBossAttack this) = rng_state (rngState this)
  end.
Proof.
  cbn zeta. unfold startBossAttack.
  match goal with
  | |- context [filter ?f RUST_WARDEN_ATTACKS] =>
      pose proof (filter_length_le f RUST_WARDEN_ATTACKS) as Hlen;
      destruct (filter f RUST_WARDEN_ATTACKS) as [| a0 rest]
  end; [reflexivity |].
  change (List.length RUST_WARDEN_ATTACKS) with 5%nat in Hlen.
  cbn [List.length Nat.eqb]. cbn zeta.
  unfold call_rng. cbn [fst snd].
  destruct (index_in_range (a0 :: rest)
              (JSNumber.floor
                 (JSNumber.fmul (fst (rng (rngState this)))
                    (inject_Z (Z.of_nat (S (List.length rest)))))))
    as (a & Hidx & Hin).
  { apply random_index_in_range; [apply rng_draw_bounds |].
    cbn [List.length] in *. lia. }
  exists a. rewrite Hidx. split; [exact Hin |].
  destruct this as [[] ? ? ? ?]. unfold executeAttack, rng. cbn.
  repeat split; reflexivity.
Qed.

(** ** Forced attacks *)

Lemma processAttackCollision_queue this :
  forcedAttackQueue (processAttackCollision this) = forcedAttackQueue this.
Proof. same_field. Qed.

Lemma processPlayerAttack_queue this :
  forcedAttackQueue (processPlayerAttack this) = forcedAttackQueue this.
Proof. same_field. Qed.

Lemma decayStagger_queue this :
  forcedAttackQueue (decayStagger this) = forcedAttackQueue this.
Proof. same_field. Qed.

Lemma processVulnerability_queue this :
  forcedAttackQueue (processVulnerability this) = forcedAttackQueue this.
Proof. same_field. Qed.

(** The boss AI on an idle boss whose queue starts with a known id. *)
Lemma processBossAI_forced this forcedId rest a :
  bossCurrentAttack (state this) = None ->
  bossVulnerable (state this) = false ->
  forcedAttackQueue this = forcedId :: rest ->
  find (fun a => String.eqb (id a) forcedId) RUST_WARDEN_ATTACKS = Some a ->
  processBossAI this
  = executeAttack (Some a) (set_forcedAttackQueue rest this).
Proof.
  intros Hatt Hvul Hq Hfind. unfold processBossAI.
  rewrite Hatt, Hvul, Hq. cbn [truthy orb]. rewrite Hfind. reflexivity.
Qed.

(** X17: forced attacks are served first in, first out, one per idle tick,
    and whatever the enabled set says.  In practice mode, on a living player
    and an idle boss (no attack in flight, not vulnerable), the tick after
    [forceAttack] starts the attack at the head of the queue, found in the
    catalogue by its id, on the new frame with its impact pending; it
    leaves the rest of the queue, with the new id at its end, and does not
    draw from the generator. *)
Theorem forced_attack_starts_on_next_tick
  (this : CombatSystem) (attackId forcedId : string) (rest : list string)
  (a : Attack) :
  mode (state this) = PRACTICE ->
  playerAlive (state this) = true ->
  bossCurrentAttack (state this) = None ->
  bossVulnerable (state this) = false ->
  (forcedAttackQueue this ++ [attackId])%list = forcedId :: rest ->
  find (fun a => String.eqb (id a) forcedId) RUST_WARDEN_ATTACKS = Some a ->
  let this' := tick (forceAttack attackId this) in
  bossCurrentAttack (state this') = Some a
  /\ bossAttackStartFrame (state this') = currentFrame (state this) + 1
  /\ bossAttackHitProcessed (state this') = false
  /\ forcedAttackQueue this' = rest
  /\ rngState this' = rngState this.
Proof.
  intros Hmode Halive Hatt Hvul Hq Hfind. cbn zeta.
  pose proof (find_some _ _ Hfind) as [Hin _].
  pose proof (catalogue_frames a Hin) as (Hw & Hact & Hrec).
  set (e1 := forceAttack attackId this).
  assert (He1 : e1 = set_forcedAttackQueue (forcedId :: rest) this).
  { unfold e1, forceAttack. rewrite Hmode, Hq. reflexivity. }
  assert (Halive1 : playerAlive (state e1) = true) by (rewrite He1; exact Halive).
  pose proof (tick_view e1 Halive1) as Hview.
  assert (Hrng : rngState (tick e1)
                 = rngState (processBossAI
                               (upd (fun s => set_currentFrame (currentFrame s + 1) s) e1))).
  { unfold tick. rewrite Halive1. cbn [negb]. cbn zeta.
    rewrite processVulnerability_rng, decayStagger_rng,
      processPlayerAttack_rng, processAttackCollision_rng. reflexivity. }
  assert (Hqueue : forcedAttackQueue (tick e1)
                   = forcedAttackQueue
                       (processBossAI
                          (upd (fun s => set_currentFrame (currentFrame s + 1) s) e1))).
  { unfold tick. rewrite Halive1. cbn [negb]. cbn zeta.
    rewrite processVulnerability_queue, decayStagger_queue,
      processPlayerAttack_queue, processAttackCollision_queue. reflexivity. }
  rewrite (processBossAI_forced _ forcedId rest a) in Hview, Hrng, Hqueue
    by (try rewrite He1; destruct this as [[] ? ? ? ?]; cbn in *;
        first [assumption | reflexivity]).
  rewrite Hrng, Hqueue. clear Hrng Hqueue.
  rewrite He1 in Hview |- *. clear He1 Halive1 e1.
  destruct this as [[] ? ? ? ?]. cbn in Halive, Hatt, Hvul, Hmode, Hq. subst.
  unfold impact_view in Hview. unfold executeAttack in *.
  unfold processAttackCollision in Hview. cbn in Hview |- *.
  assert (Hno : (0 - windupFrames a =? IMPACT_DELAY_FRAMES) = false)
    by (apply Z.eqb_neq; unfold IMPACT_DELAY_FRAMES; lia).
  assert (Hlive : (windupFrames a + activeFrames a + recoveryFrames a <=? 0) = false)
    by (apply Z.leb_gt; lia).
  match type of Hview with
  | context [?x - ?x] => replace (x - x) with 0 in Hview by lia
  end.
  rewrite Hno, Hlive in Hview. cbn in Hview.
  injection Hview as _ _ _ Ha Hs Hh _ _ _.
  repeat split; assumption.
Qed.

(** ** A strike on the vulnerable boss *)

Lemma tick_strike_waits this :
  playerAlive (state this) = true ->
  bossVulnerable (state this) = true ->
  bossCurrentAttack (state this) = None ->
  playerAttacking (state this) = true ->
  currentFrame (state this) + 1 - bossVulnerableFrame (state this)
    < VULNERABILITY_DURATION_FRAMES ->
  currentFrame (state this) + 1 - playerAttackFrame (state this) < 10 ->
  tick this = advance 1 this.
Proof.
  intros Ha Hv Hatt Hp Hlt Hs. unfold advance. open_engine. subst.
  unfold tick. cbn. unfold_private. cbn.
  walk; bool_to_Z; unfold VULNERABILITY_DURATION_FRAMES in *;
    first [reflexivity | lia].
Qed.

Lemma tick_strike_lands this :
  playerAlive (state this) = true ->
  bossVulnerable (state this) = true ->
  bossCurrentAttack (state this) = None ->
  playerAttacking (state this) = true ->
  currentFrame (state this) + 1 - bossVulnerableFrame (state this)
    < VULNERABILITY_DURATION_FRAMES ->
  currentFrame (state this) + 1 - playerAttackFrame (state this) = 10 ->
  tick this = dealDamageToBoss SAFE_ATTACK_DAMAGE (advance 1 this).
Proof.
  intros Ha Hv Hatt Hp Hlt Hs. unfold advance. open_engine. subst.
  unfold tick. cbn. unfold_private. cbn.
  walk; bool_to_Z; unfold VULNERABILITY_DURATION_FRAMES in *;
    first [reflexivity | lia].
Qed.

Lemma advance_advance j k this : advance j (advance k this) = advance (k + j) this.
Proof.
  destruct this as [[] ? ? ? ?]. unfold advance, upd. cbn.
  rewrite Z.add_assoc. reflexivity.
Qed.

Lemma ticks_strike_waits k this :
  playerAlive (state this) = true ->
  bossVulnerable (state this) = true ->
  bossCurrentAttack (state this) = None ->
  playerAttacking (state this) = true ->
  currentFrame (state this) + Z.of_nat k - bossVulnerableFrame (state this)
    < VULNERABILITY_DURATION_FRAMES ->
  currentFrame (state this) + Z.of_nat k - playerAttackFrame (state this) < 10 ->
  ticks k this = advance (Z.of_nat k) this.
Proof.
  intros Ha Hv Hatt Hp. induction k as [| k IH]; intros Hlt Hs.
  - destruct this as [[] ? ? ? ?]. unfold advance, upd. cbn.
    rewrite Z.add_0_r. reflexivity.
  - rewrite ticks_succ_r, IH by lia.
    rewrite tick_strike_waits;
      try (destruct this as [[] ? ? ? ?]; unfold advance; cbn in *;
           first [assumption | lia]).
    rewrite advance_advance. f_equal. lia.
Qed.

(** X18: a strike on a vulnerable boss lands on its tenth frame.  With the
    player alive and not already striking, the vulnerability having more
    than 10 frames left, and [bossHP] and [damageDealt] below 2^53 in
    magnitude, [playerAttack] followed by ticks changes no counter during
    the first nine ticks, and the tenth takes exactly [SAFE_ATTACK_DAMAGE]
    (1) from [bossHP] and adds it to [damageDealt]. *)
Theorem strike_lands_on_the_tenth_frame (this : CombatSystem) :
  playerAlive (state this) = true ->
  bossVulnerable (state this) = true ->
  bossCurrentAttack (state this) = None ->
  playerAttacking (state this) = false ->
  currentFrame (state this) + 10 - bossVulnerableFrame (state this)
    < VULNERABILITY_DURATION_FRAMES ->
  Z.abs (bossHP (state this)) < 2 ^ 53 ->
  Z.abs (damageDealt (state this)) < 2 ^ 53 ->
  let e := playerAttack this in
  (forall k, (k < 10)%nat -> counters (state (ticks k e)) = counters (state this))
  /\ bossHP (state (ticks 10 e)) = bossHP (state this) - 1
  /\ damageDealt (state (ticks 10 e)) = damageDealt (state this) + 1
  /\ bossVulnerable (state (ticks 10 e)) = true.
Proof.
  intros Ha Hv Hatt Hp Hlt Hhp Hdm. cbn zeta.
  set (e := playerAttack this).
  assert (He : playerAlive (state e) = true
               /\ bossVulnerable (state e) = true
               /\ bossCurrentAttack (state e) = None
               /\ playerAttacking (state e) = true
               /\ currentFrame (state e) = currentFrame (state this)
               /\ bossVulnerableFrame (state e) = bossVulnerableFrame (state this)
               /\ playerAttackFrame (state e) = currentFrame (state this)
               /\ counters (state e) = counters (state this)).
  { unfold e, playerAttack. rewrite Ha, Hp, Hv. cbn [negb orb].
    destruct this as [[] ? ? ? ?]. cbn in *. subst. repeat split. }
  destruct He as (Ha' & Hv' & Hatt' & Hp' & Hf' & Hvf' & Hpf' & Hc').
  assert (Hwait : forall k, (k < 10)%nat -> ticks k e = advance (Z.of_nat k) e).
  { intros k Hk. apply ticks_strike_waits; try assumption;
      rewrite Hf', ?Hvf', ?Hpf'; lia. }
  split.
  - intros k Hk. rewrite (Hwait k Hk), <- Hc'.
    destruct e as [[] ? ? ? ?]. reflexivity.
  - change 10%nat with (S 9). rewrite ticks_succ_r, (Hwait 9%nat) by lia.
    rewrite tick_strike_lands;
      try (destruct e as [[] ? ? ? ?]; unfold advance; cbn in *; subst;
           first [assumption | reflexivity | lia]).
    unfold counters in Hc'. injection Hc' as _ _ _ Hd Hh.
    rewrite <- Hd, <- Hh. rewrite <- Hh in Hhp. rewrite <- Hd in Hdm.
    destruct e as [[] ? ? ? ?]. cbn in *.
    split; [apply round53_exact; lia |].
    split; [apply round53_exact; lia | assumption].
Qed.

(** ** More on rounding: lower bounds and integers *)

Section MoreDoubles.

Import JSNumber.
Local Open Scope Q_scope.

Lemma rne_ge_int y N : inject_Z N <= y -> (N <= rne y)%Z.
Proof.
  intros Hy. unfold rne.
  assert (HfN : (N <= Qfloor y)%Z).
  { rewrite <- (Qfloor_Z N). apply Qfloor_resp_le. assumption. }
  destruct (_ ?= _); [destruct (Z.even _) | |]; lia.
Qed.

(** Rounding never steps under a positive double either. *)
Lemma rnd_ge_double m k x :
  (2 ^ 52 <= m < 2 ^ 53)%Z ->
  inject_Z m * 2 ^ (k - 52) <= x ->
  inject_Z m * 2 ^ (k - 52) <= rnd x.
Proof.
  intros [Hm1 Hm2] Hx.
  rewrite Zle_Qle in Hm1. rewrite Zlt_Qlt in Hm2.
  change (inject_Z (2 ^ 52)) with (2 ^ 52) in Hm1.
  change (inject_Z (2 ^ 53)) with (2 ^ 53) in Hm2.
  set (M := inject_Z m) in *.
  pose proof (pow2_pos (k - 52)) as Hk.
  assert (Hk1 : 2 ^ 52 * 2 ^ (k - 52) == 2 ^ k).
  { rewrite <- pow2_add. replace (52 + (k - 52))%Z with k by lia. reflexivity. }
  assert (Hk2 : 2 ^ 53 * 2 ^ (k - 52) == 2 ^ (k + 1)).
  { rewrite <- pow2_add. replace (53 + (k - 52))%Z with (k + 1)%Z by lia. reflexivity. }
  assert (HP : 0 < M * 2 ^ (k - 52)) by nra.
  assert (Hpos : 0 < x) by lra.
  unfold rnd.
  destruct (Qnum x) eqn:Hn.
  - exfalso. destruct x as [n d]. cbn in Hn. subst n.
    unfold Qlt in Hpos. cbn in Hpos. lia.
  - rewrite Qred_correct.
    assert (Habs : Qabs x = x).
    { destruct x as [n d]. cbn in Hn. subst n. reflexivity. }
    rewrite Habs.
    destruct (ilog2_spec x Hpos) as [He1 He2].
    set (e := ilog2 x) in *.
    assert (Hek : (k <= e)%Z).
    { assert (2 ^ k < 2 ^ (e + 1)) by nra.
      assert (k < e + 1)%Z by (apply pow2_lt_inv; assumption). lia. }
    pose proof (pow2_pos (52 - e)) as Hs. pose proof (pow2_pos (e - 52)) as Hs'.
    assert (Hinv : 2 ^ (52 - e) * 2 ^ (e - 52) == 1).
    { rewrite <- pow2_add. replace (52 - e + (e - 52))%Z with 0%Z by lia. reflexivity. }
    destruct (Z.eq_dec e k) as [Heq | Hne].
    + rewrite Heq in *.
      assert (Hy : M <= x * 2 ^ (52 - k)).
      { assert (M * 2 ^ (k - 52) * 2 ^ (52 - k) <= x * 2 ^ (52 - k)) by nra.
        assert (M * 2 ^ (k - 52) * 2 ^ (52 - k) == M).
        { rewrite <- Qmult_assoc, (Qmult_comm (2 ^ (k - 52))), Hinv. ring. }
        lra. }
      apply rne_ge_int in Hy. rewrite Zle_Qle in Hy. fold M in Hy. nra.
    + assert (Hy : inject_Z (2 ^ 52) <= x * 2 ^ (52 - e)).
      { change (inject_Z (2 ^ 52)) with (2 ^ 52).
        assert (He3 : 2 ^ e * 2 ^ (52 - e) == 2 ^ 52).
        { rewrite <- pow2_add. replace (e + (52 - e))%Z with 52%Z by lia. reflexivity. }
        nra. }
      apply rne_ge_int in Hy. rewrite Zle_Qle in Hy.
      change (inject_Z (2 ^ 52)) with (2 ^ 52) in Hy.
      assert (He4 : 2 ^ 52 * 2 ^ (e - 52) == 2 ^ e).
      { rewrite <- pow2_add. replace (52 + (e - 52))%Z with e by lia. reflexivity. }
      assert (He5 : 2 ^ (k + 1) <= 2 ^ e) by (apply pow2_le; lia).
      set (R := inject_Z (rne (x * 2 ^ (52 - e)))) in *.
      nra.
  - exfalso. destruct x as [n d]. cbn in Hn. subst n.
    unfold Qlt in Hpos. cbn in Hpos. lia.
Qed.

(** A positive integer below 2^53 is a double: it has a 53-bit
    significand. *)
Lemma int_is_double K :
  (0 < K < 2 ^ 53)%Z ->
  exists m k, (2 ^ 52 <= m < 2 ^ 53)%Z /\ inject_Z K == inject_Z m * 2 ^ (k - 52).
Proof.
  intros [H0 H1].
  destruct (Z.log2_spec K H0) as [Hlo Hhi].
  pose proof (Z.log2_nonneg K) as Hl0.
  assert (Hl : (Z.log2 K < 53)%Z).
  { apply Z.log2_lt_pow2; lia. }
  set (l := Z.log2 K) in *.
  exists (K * 2 ^ (52 - l))%Z, l.
  assert (Hp : (0 < 2 ^ (52 - l))%Z) by (apply Z.pow_pos_nonneg; lia).
  assert (Hmul : (2 ^ l * 2 ^ (52 - l) = 2 ^ 52)%Z).
  { rewrite <- Z.pow_add_r by lia. f_equal. lia. }
  assert (Hmul' : (2 ^ Z.succ l * 2 ^ (52 - l) = 2 ^ 53)%Z).
  { rewrite <- Z.pow_add_r by lia. f_equal. lia. }
  split; [nia |].
  rewrite inject_Z_mult. rewrite (pow2_inject (52 - l)) by lia.
  rewrite <- Qmult_assoc, <- pow2_add.
  replace (52 - l + (l - 52))%Z with 0%Z by lia.
  change (2 ^ 0) with 1. ring.
Qed.

Lemma rnd_le_int K x : (0 < K < 2 ^ 53)%Z -> x <= inject_Z K -> rnd x <= inject_Z K.
Proof.
  intros HK Hx. destruct (int_is_double K HK) as (m & k & Hm & Heq).
  rewrite Heq in *. apply rnd_le_double; assumption.
Qed.

Lemma rnd_ge_int K x : (0 < K < 2 ^ 53)%Z -> inject_Z K <= x -> inject_Z K <= rnd x.
Proof.
  intros HK Hx. destruct (int_is_double K HK) as (m & k & Hm & Heq).
  rewrite Heq in *. apply rnd_ge_double; assumption.
Qed.

Lemma rnd_nonpos x : x <= 0 -> rnd x <= 0.
Proof.
  intros Hx.
  assert (H1 : rnd x <= inject_Z 1) by (apply rnd_le_int; [lia | change (inject_Z 1) with 1; lra]).
  unfold rnd in *.
  destruct (Qnum x) eqn:Hn; [apply Qle_refl | |].
  - exfalso. destruct x as [n d]. cbn in Hn. subst n.
    unfold Qle in Hx. cbn in Hx. lia.
  - rewrite Qred_correct.
    set (e := ilog2 (Qabs x)).
    pose proof (pow2_pos (52 - e)) as Hs. pose proof (pow2_pos (e - 52)) as Hs'.
    assert (Hy : x * 2 ^ (52 - e) <= inject_Z 0) by (change (inject_Z 0) with 0; nra).
    apply rne_le_int in Hy. rewrite Zle_Qle in Hy. change (inject_Z 0) with 0 in Hy.
    nra.
Qed.

(** Integers below 2^53 in magnitude are kept as they are. *)
Lemma rnd_int_exact K : (0 <= K < 2 ^ 53)%Z -> rnd (inject_Z K) = inject_Z K.
Proof.
  intros [H0 H1].
  destruct (Z.eq_dec K 0) as [-> | Hne]; [reflexivity |].
  assert (Heq : rnd (inject_Z K) == inject_Z K).
  { apply Qle_antisym.
    - apply rnd_le_int; [lia | apply Qle_refl].
    - apply rnd_ge_int; [lia | apply Qle_refl]. }
  assert (Hred : Qred (rnd (inject_Z K)) = rnd (inject_Z K)).
  { unfold rnd. destruct (Qnum (inject_Z K)); [reflexivity | |];
      apply Qred_complete, Qred_correct. }
  rewrite <- Hred. rewrite (Qred_complete _ _ Heq).
  unfold inject_Z, Qred. cbn [Qnum Qden].
  pose proof (Z.ggcd_gcd K 1) as Hg.
  pose proof (Z.ggcd_correct_divisors K 1) as Hd.
  destruct (Z.ggcd K 1) as [g [aa bb]]. cbn [fst snd] in *.
  rewrite Z.gcd_1_r in Hg. subst g. destruct Hd as [Ha Hb].
  rewrite Z.mul_1_l in Ha, Hb. subst aa bb. reflexivity.
Qed.

End MoreDoubles.

(** ** The score once the time bonus has run out *)

Section Score.

Import JSNumber.

Lemma inject_Z_sub a b : (inject_Z a - inject_Z b)%Q = inject_Z (a - b).
Proof.
  unfold Qminus, Qplus, Qopp, inject_Z. cbn. f_equal. lia.
Qed.

Lemma inject_Z_add a b : (inject_Z a + inject_Z b)%Q = inject_Z (a + b).
Proof.
  unfold Qplus, inject_Z. cbn. f_equal. lia.
Qed.

Lemma inject_Z_mul a b : (inject_Z a * inject_Z b)%Q = inject_Z (a * b).
Proof. reflexivity. Qed.

Lemma Math_round_int n : Math_round (inject_Z n) = n.
Proof.
  unfold Math_round.
  assert (Hlo : (n <= Qfloor (inject_Z n + (1 # 2)))%Z).
  { rewrite <- (Qfloor_Z n) at 1. apply Qfloor_resp_le.
    set (x := inject_Z n). lra. }
  assert (Hhi : (Qfloor (inject_Z n + (1 # 2)) < n + 1)%Z).
  { rewrite Zlt_Qlt. eapply Qle_lt_trans; [apply Qfloor_le |].
    rewrite inject_Z_plus. change (inject_Z 1) with 1%Q.
    set (x := inject_Z n). lra. }
  lia.
Qed.

(** Five minutes after the start the time bonus is zero. *)
Lemma seconds_remaining_zero elapsed :
  300000 <= elapsed < 2 ^ 53 ->
  max0 (fsub 300 (fdiv (inject_Z elapsed) 1000)) = 0%Q.
Proof.
  intros [Hlo Hhi]. unfold max0.
  assert (Hsecs : (inject_Z 300 <= fdiv (inject_Z elapsed) 1000)%Q).
  { unfold fdiv. apply rnd_ge_int; [lia |].
    rewrite Zle_Qle in Hlo.
    change (inject_Z 300000) with (300000 # 1)%Q in Hlo.
    change (inject_Z 300) with (300 # 1)%Q.
    unfold Qdiv. change (/ 1000)%Q with (1 # 1000)%Q.
    set (x := inject_Z elapsed) in *. nra. }
  assert (Hneg : (fsub 300 (fdiv (inject_Z elapsed) 1000) <= 0)%Q).
  { unfold fsub at 1. apply rnd_nonpos.
    change (inject_Z 300) with 300%Q in Hsecs.
    set (y := fdiv (inject_Z elapsed) 1000) in *. lra. }
  apply Qle_bool_iff in Hneg. rewrite Hneg. reflexivity.
Qed.

End Score.

(** X19: in standard mode, once five minutes (300000 ms) have passed since
    construction, the score is the base plus 50 per parry, less 20 if the
    player is dead: the time bonus is floored at zero.  (Clock readings and
    sums are taken below 2^53, and the base at 20 or more.) *)
Theorem score_after_five_minutes (now baseBossXP : Z) (this : CombatSystem) :
  mode (state this) = STANDARD ->
  0 <= runStartTime (state this) ->
  runStartTime (state this) + 300000 <= now < 2 ^ 53 ->
  20 <= baseBossXP ->
  0 <= perfectParries (state this) ->
  baseBossXP + 50 * perfectParries (state this) < 2 ^ 53 ->
  calculateScore now baseBossXP this
  = baseBossXP + 50 * perfectParries (state this)
    - (if playerAlive (state this) then 0 else 20).
Proof.
  intros Hmode Hstart Hnow Hbase Hp Hsum. unfold calculateScore.
  rewrite Hmode. cbn [GameMode_eqb].
  unfold JSNumber.fsub at 3. rewrite inject_Z_sub.
  rewrite rnd_int_exact by lia.
  rewrite seconds_remaining_zero by lia.
  change (JSNumber.fmul 0 10) with (inject_Z 0).
  set (p := perfectParries (state this)) in *.
  assert (Hp50 : JSNumber.fmul (inject_Z p) 50 = inject_Z (p * 50)).
  { unfold JSNumber.fmul. change 50%Q with (inject_Z 50).
    rewrite inject_Z_mul. apply rnd_int_exact. lia. }
  rewrite Hp50.
  assert (Hs1 : JSNumber.fadd (inject_Z baseBossXP) (inject_Z (p * 50))
                = inject_Z (baseBossXP + p * 50)).
  { unfold JSNumber.fadd. rewrite inject_Z_add. apply rnd_int_exact. lia. }
  rewrite Hs1.
  assert (Hs2 : JSNumber.fadd (inject_Z (baseBossXP + p * 50)) (inject_Z 0)
                = inject_Z (baseBossXP + p * 50)).
  { unfold JSNumber.fadd. rewrite inject_Z_add, Z.add_0_r.
    apply rnd_int_exact. lia. }
  rewrite Hs2.
  destruct (playerAlive (state this)).
  - change (JSNumber.fmul 0 20) with (inject_Z 0).
    unfold JSNumber.fsub. rewrite inject_Z_sub, rnd_int_exact by lia.
    rewrite Math_round_int. lia.
  - replace (JSNumber.fmul 1 20) with (inject_Z 20) by (vm_compute; reflexivity).
    unfold JSNumber.fsub. rewrite inject_Z_sub, rnd_int_exact by lia.
    rewrite Math_round_int. lia.
Qed.

(** ** The host's loop *)

Section HostLoop.

Import JSNumber.

Lemma frame_time_bounds : (16 <= FRAME_TIME_MS /\ 0 < FRAME_TIME_MS)%Q.
Proof. split; vm_compute; first [discriminate | reflexivity]. Qed.

Lemma ticks_tick n this : ticks n (tick this) = ticks (S n) this.
Proof. reflexivity. Qed.

Lemma fge_true x y : fge x y = true -> (y <= x)%Q.
Proof. unfold fge. apply Qle_bool_iff. Qed.

Lemma drain_terminates fuel (K : Z) (acc : Q) (c : CombatSystem) :
  (0 <= acc)%Q -> (acc <= inject_Z K)%Q -> K < 2 ^ 53 ->
  (Z.to_nat (K / 16) < fuel)%nat ->
  exists n acc',
    drain fuel acc c = Some (acc', ticks n c)
    /\ (0 <= acc')%Q /\ (acc' < FRAME_TIME_MS)%Q
    /\ Z.of_nat n <= K / 16.
Proof.
  destruct frame_time_bounds as [Hft _].
  revert K acc c. induction fuel as [| fuel IH]; intros K acc c H0 HK Hlt Hfuel;
    [lia |].
  assert (HK0 : 0 <= K).
  { rewrite Zle_Qle. change (inject_Z 0) with 0%Q. lra. }
  cbn [drain]. destruct (fge acc FRAME_TIME_MS) eqn:Hge.
  - apply fge_true in Hge.
    assert (HK17 : 17 <= K).
    { assert (Hk : (inject_Z 16 < inject_Z K)%Q).
      { change (inject_Z 16) with 16%Q.
        assert (16 < FRAME_TIME_MS)%Q by (vm_compute; reflexivity). lra. }
      rewrite <- Zlt_Qlt in Hk. lia. }
    destruct (IH (K - 16) (fsub acc FRAME_TIME_MS) (tick c))
      as (n & acc' & Hd & Ha0 & Ha1 & Hn).
    + apply rnd_nonneg. lra.
    + unfold fsub. apply rnd_le_int; [lia |].
      rewrite <- inject_Z_sub. change (inject_Z 16) with 16%Q. lra.
    + lia.
    + replace (K - 16) with (K + (-1) * 16) by lia.
      rewrite Z.div_add by lia.
      assert (1 <= K / 16) by (apply Z.div_le_lower_bound; lia). lia.
    + exists (S n), acc'. rewrite Hd, ticks_tick.
      repeat split; try assumption.
      replace (K - 16) with (K + (-1) * 16) in Hn by lia.
      rewrite Z.div_add in Hn by lia. lia.
  - exists 0%nat, acc. cbn [ticks]. repeat split; try assumption.
    + apply fge_false. exact Hge.
    + apply Z.div_pos; lia.
Qed.

End HostLoop.

(** X20: the fixed-timestep loop of [CombatScene.update] terminates.  With
    a non-negative accumulator and frame delta whose sum is at most an
    integer [K] below 2^53, it ends within [K / 16] iterations, having
    ticked the engine once per iteration, and leaves in the accumulator a
    non-negative time shorter than one frame ([FRAME_TIME_MS]). *)
Theorem update_loop_terminates
  (fuel : nat) (K : Z) (delta : Q) (scene : SceneClock) :
  tutorialActive scene = false ->
  isRunOver (combat scene) = false ->
  (0 <= accumulator scene)%Q -> (0 <= delta)%Q ->
  (accumulator scene + delta <= inject_Z K)%Q -> 0 < K < 2 ^ 53 ->
  (Z.to_nat (K / 16) < fuel)%nat ->
  exists n scene',
    update fuel delta scene = Some scene'
    /\ combat scene' = ticks n (combat scene)
    /\ Z.of_nat n <= K / 16
    /\ (0 <= accumulator scene' /\ accumulator scene' < FRAME_TIME_MS)%Q.
Proof.
  intros Htut Hover Hacc Hdelta Hsum HK Hfuel. unfold update.
  rewrite Htut, Hover.
  destruct (drain_terminates fuel K
              (JSNumber.fadd (accumulator scene) delta) (combat scene))
    as (n & acc' & Hd & Ha0 & Ha1 & Hn); try lia.
  - apply fadd_nonneg; assumption.
  - unfold JSNumber.fadd. apply rnd_le_int; [lia | exact Hsum].
  - rewrite Hd. exists n. eexists. split; [reflexivity |]. cbn.
    repeat split; assumption.
Qed.

(** ** How long a vulnerability lasts *)

Lemma tick_vulnerable_view this :
  playerAlive (state this) = true ->
  bossVulnerable (state this) = true ->
  bossCurrentAttack (state this) = None ->
  vulnerable_view (state (tick this))
  = (true,
     negb (VULNERABILITY_DURATION_FRAMES
             <=? currentFrame (state this) + 1 - bossVulnerableFrame (state this)),
     bossVulnerableFrame (state this), currentFrame (state this) + 1, None).
Proof.
  intros Ha Hv Hatt. open_engine. subst.
  unfold vulnerable_view, tick. cbn. unfold_private. cbn.
  walk; try first [reflexivity | congruence];
    bool_to_Z; unfold VULNERABILITY_DURATION_FRAMES in *;
    match goal with
    | |- context [?a <=? ?b] => destruct (Z.leb_spec a b)
    end; first [reflexivity | lia].
Qed.

Lemma ticks_vulnerable_view k this :
  playerAlive (state this) = true ->
  bossVulnerable (state this) = true ->
  bossCurrentAttack (state this) = None ->
  currentFrame (state this) + Z.of_nat k - bossVulnerableFrame (state this)
    < VULNERABILITY_DURATION_FRAMES ->
  vulnerable_view (state (ticks k this))
  = (true, true, bossVulnerableFrame (state this),
     currentFrame (state this) + Z.of_nat k, None).
Proof.
  intros Ha Hv Hatt. induction k as [| k IH]; intros Hlt.
  - cbn [ticks Z.of_nat]. unfold vulnerable_view.
    rewrite Ha, Hv, Hatt, Z.add_0_r. reflexivity.
  - rewrite ticks_succ_r.
    specialize (IH ltac:(lia)). unfold vulnerable_view in IH.
    injection IH as Ha' Hv' Hvf' Hf' Hatt'.
    rewrite (tick_vulnerable_view _ Ha' Hv' Hatt').
    rewrite Hvf', Hf'.
    replace (currentFrame (state this) + Z.of_nat k + 1)
      with (currentFrame (state this) + Z.of_nat (S k)) by lia.
    destruct (Z.leb_spec VULNERABILITY_DURATION_FRAMES
                (currentFrame (state this) + Z.of_nat (S k)
                 - bossVulnerableFrame (state this))); [lia | reflexivity].
Qed.

(** X21: a vulnerability ends on the tick that makes it
    [VULNERABILITY_DURATION_FRAMES] (180) frames old, and on no earlier
    one.  From a reachable state with the player alive and the boss
    vulnerable, the boss stays vulnerable, with no attack in flight, through
    every tick before that one, and that tick clears [bossVulnerable]. *)
Theorem vulnerability_ends_after_180_frames (this : CombatSystem) :
  reachable this ->
  playerAlive (state this) = true ->
  bossVulnerable (state this) = true ->
  let r := Z.to_nat (bossVulnerableFrame (state this)
                     + VULNERABILITY_DURATION_FRAMES - currentFrame (state this)) in
  (forall k, (k < r)%nat ->
     bossVulnerable (state (ticks k this)) = true
     /\ bossCurrentAttack (state (ticks k this)) = None)
  /\ bossVulnerable (state (ticks r this)) = false
  /\ currentFrame (state (ticks r this))
     = bossVulnerableFrame (state this) + VULNERABILITY_DURATION_FRAMES.
Proof.
  intros H Ha Hv. cbn zeta.
  destruct (timers_reachable this H) as (_ & Hvul & _).
  destruct (Hvul Hv) as (Hatt & _ & Hage).
  set (r := Z.to_nat _).
  assert (Hr : Z.of_nat r
               = bossVulnerableFrame (state this) + VULNERABILITY_DURATION_FRAMES
                 - currentFrame (state this)) by (unfold r; lia).
  split.
  - intros k Hk.
    pose proof (ticks_vulnerable_view k this Ha Hv Hatt ltac:(lia)) as Hview.
    unfold vulnerable_view in Hview. injection Hview as _ Hv' _ _ Hatt'.
    split; assumption.
  - destruct r as [| m]; [lia |].
    pose proof (ticks_vulnerable_view m this Ha Hv Hatt ltac:(lia)) as Hview.
    unfold vulnerable_view in Hview. injection Hview as Ha' Hv' Hvf' Hf' Hatt'.
    rewrite ticks_succ_r.
    pose proof (tick_vulnerable_view _ Ha' Hv' Hatt') as Hlast.
    unfold vulnerable_view in Hlast. injection Hlast as _ Hv'' _ Hf'' _.
    rewrite Hv'', Hf'', Hvf', Hf'. split; [| lia].
    destruct (Z.leb_spec VULNERABILITY_DURATION_FRAMES
                (currentFrame (state this) + Z.of_nat m + 1
                 - bossVulnerableFrame (state this))); [reflexivity | lia].
Qed.

(** ** The impact of any attack *)

(** X22: the tick that brings an attack with a pending impact to its impact
    frame, [windupFrames + IMPACT_DELAY_FRAMES] after its start, marks the
    impact processed and counts exactly one block or one hit.  It is a
    block, leaving the player alive, when the shield is on the attack's
    zone and the attack is blockable; any other case is a hit, which counts
    a death and, outside practice mode, kills the player.  An unblockable
    attack therefore always hits, wherever the shield is. *)
Theorem impact_is_a_block_or_a_hit (this : CombatSystem) (a : Attack) :
  playerAlive (state this) = true ->
  bossCurrentAttack (state this) = Some a ->
  bossAttackHitProcessed (state this) = false ->
  currentFrame (state this) + 1 - bossAttackStartFrame (state this)
    = windupFrames a + IMPACT_DELAY_FRAMES ->
  let s := state this in
  let s' := state (tick this) in
  bossAttackHitProcessed s' = true
  /\ (if (playerShieldZone s =? zone a) && isBlocking a
      then blocksPerformed s' = blocksPerformed s + 1
           /\ deathCount s' = deathCount s
           /\ playerAlive s' = true
      else blocksPerformed s' = blocksPerformed s
           /\ deathCount s' = deathCount s + 1
           /\ playerAlive s' = GameMode_eqb (mode s) PRACTICE)
  /\ (isBlocking a = false -> deathCount s' = deathCount s + 1).
Proof.
  intros Ha Hatt Hhit Hat. cbn zeta.
  destruct (tick_impact this a Ha Hatt Hhit Hat) as (_ & Hp & Hres).
  split; [exact Hp |]. split; [exact Hres |].
  intros Hb. rewrite Hb, andb_false_r in Hres. tauto.
Qed.

(** ** The further properties at sample runs *)

Lemma practice_player_never_dies_witness :
  reachable hit_engine
  /\ mode (state hit_engine) = PRACTICE
  /\ deathCount (state hit_engine) = 1
  /\ playerAlive (state hit_engine) = true.
Proof.
  assert (H : reachable hit_engine)
    by apply reachable_run, reachable_new.
  assert (Hm : mode (state hit_engine) = PRACTICE) by (vm_compute; reflexivity).
  split; [exact H |]. split; [exact Hm |]. split; [vm_compute; reflexivity |].
  exact (practice_player_never_dies hit_engine H Hm).
Defined.

Lemma standard_death_is_counted_once_witness :
  reachable dead_engine
  /\ mode (state dead_engine) = STANDARD
  /\ playerAlive (state dead_engine) = false
  /\ deathCount (state dead_engine) = 1.
Proof.
  assert (H : reachable dead_engine) by apply reachable_ticks, reachable_new.
  assert (Hm : mode (state dead_engine) = STANDARD) by (vm_compute; reflexivity).
  assert (Hd : playerAlive (state dead_engine) = false) by (vm_compute; reflexivity).
  split; [exact H |]. split; [exact Hm |]. split; [exact Hd |].
  pose proof (standard_death_is_counted_once dead_engine H Hm) as Hc.
  rewrite Hd in Hc. exact Hc.
Defined.

Lemma dead_engine_ignores_every_call_witness :
  reachable dead_engine
  /\ playerAlive (state dead_engine) = false
  /\ step dead_engine (ForceAttack "bash_center") = dead_engine.
Proof.
  assert (H : reachable dead_engine) by apply reachable_ticks, reachable_new.
  assert (Hd : playerAlive (state dead_engine) = false) by (vm_compute; reflexivity).
  split; [exact H |]. split; [exact Hd |].
  exact (dead_engine_ignores_every_call dead_engine (ForceAttack "bash_center") H Hd).
Defined.

Lemma parry_never_damages_boss_witness :
  reachable (engaged_engine 55)
  /\ fst (attemptParry ZONE_CENTER 1 (engaged_engine 55)) = true
  /\ bossHP (state (snd (attemptParry ZONE_CENTER 1 (engaged_engine 55))))
     = bossHP (state (engaged_engine 55)).
Proof.
  assert (H : reachable (engaged_engine 55)) by apply reachable_run, reachable_new.
  split; [exact H |]. split; [vm_compute; reflexivity |].
  exact (proj1 (proj2 (parry_never_damages_boss (engaged_engine 55) ZONE_CENTER 1 H))).
Defined.

Lemma run_over_is_final_witness :
  isRunOver dead_engine = true /\ isRunOver (step dead_engine PlayerAttack) = true.
Proof.
  assert (H : isRunOver dead_engine = true) by (vm_compute; reflexivity).
  split; [exact H | exact (run_over_is_final dead_engine PlayerAttack H)].
Defined.

Lemma attack_in_flight_is_catalogued_and_timely_witness :
  reachable (engaged_engine 55)
  /\ bossCurrentAttack (state (engaged_engine 55)) = Some bash_center
  /\ In bash_center RUST_WARDEN_ATTACKS
  /\ 0 <= currentFrame (state (engaged_engine 55))
          - bossAttackStartFrame (state (engaged_engine 55))
       < windupFrames bash_center + activeFrames bash_center
         + recoveryFrames bash_center.
Proof.
  assert (H : reachable (engaged_engine 55)) by apply reachable_run, reachable_new.
  assert (Hb : bossCurrentAttack (state (engaged_engine 55)) = Some bash_center)
    by (vm_compute; reflexivity).
  split; [exact H |]. split; [exact Hb |].
  exact (attack_in_flight_is_catalogued_and_timely (engaged_engine 55) bash_center H Hb).
Defined.

Lemma vulnerability_is_short_and_unstaggered_witness :
  reachable vulnerable_engine
  /\ bossVulnerable (state vulnerable_engine) = true
  /\ bossStagger (state vulnerable_engine) = 0%Q
  /\ 0 <= currentFrame (state vulnerable_engine)
          - bossVulnerableFrame (state vulnerable_engine)
       < VULNERABILITY_DURATION_FRAMES.
Proof.
  assert (H : reachable vulnerable_engine) by apply reachable_run, reachable_new.
  assert (Hv : bossVulnerable (state vulnerable_engine) = true)
    by (vm_compute; reflexivity).
  split; [exact H |]. split; [exact Hv |].
  exact (vulnerability_is_short_and_unstaggered vulnerable_engine H Hv).
Defined.

Lemma strike_lasts_under_twenty_frames_witness :
  reachable wounded_engine
  /\ playerAttacking (state wounded_engine) = true
  /\ 0 <= currentFrame (state wounded_engine)
          - playerAttackFrame (state wounded_engine) < 20.
Proof.
  assert (H : reachable wounded_engine)
    by (apply reachable_run; apply reachable_run, reachable_new).
  assert (Hp : playerAttacking (state wounded_engine) = true)
    by (vm_compute; reflexivity).
  split; [exact H |]. split; [exact Hp |].
  exact (strike_lasts_under_twenty_frames wounded_engine H Hp).
Defined.

Lemma pending_impact_lies_ahead_witness :
  reachable (engaged_engine 124)
  /\ bossCurrentAttack (state (engaged_engine 124)) = Some bash_center
  /\ bossAttackHitProcessed (state (engaged_engine 124)) = false
  /\ currentFrame (state (engaged_engine 124))
     - bossAttackStartFrame (state (engaged_engine 124))
     < windupFrames bash_center + IMPACT_DELAY_FRAMES.
Proof.
  assert (H : reachable (engaged_engine 124)) by apply reachable_run, reachable_new.
  assert (Hb : bossCurrentAttack (state (engaged_engine 124)) = Some bash_center)
    by (vm_compute; reflexivity).
  assert (Hc : bossAttackHitProcessed (state (engaged_engine 124)) = false)
    by (vm_compute; reflexivity).
  split; [exact H |]. split; [exact Hb |]. split; [exact Hc |].
  exact (pending_impact_lies_ahead (engaged_engine 124) bash_center H Hb Hc).
Defined.

Lemma effective_parry_window_witness :
  reachable (engaged_engine 124)
  /\ playerAlive (state (engaged_engine 124)) = true
  /\ bossCurrentAttack (state (engaged_engine 124)) = Some bash_center
  /\ bossAttackHitProcessed (state (engaged_engine 124)) = false
  /\ currentFrame (state (engaged_engine 124))
     - bossAttackStartFrame (state (engaged_engine 124)) = 124
  /\ fst (attemptParry (zone bash_center) 0 (engaged_engine 124)) = true.
Proof.
  assert (H : reachable (engaged_engine 124)) by apply reachable_run, reachable_new.
  assert (Ha : playerAlive (state (engaged_engine 124)) = true)
    by (vm_compute; reflexivity).
  assert (Hb : bossCurrentAttack (state (engaged_engine 124)) = Some bash_center)
    by (vm_compute; reflexivity).
  assert (Hc : bossAttackHitProcessed (state (engaged_engine 124)) = false)
    by (vm_compute; reflexivity).
  assert (Hd : currentFrame (state (engaged_engine 124))
               - bossAttackStartFrame (state (engaged_engine 124)) = 124)
    by (vm_compute; reflexivity).
  split; [exact H |]. split; [exact Ha |]. split; [exact Hb |].
  split; [exact Hc |]. split; [exact Hd |].
  apply (proj2 (effective_parry_window (engaged_engine 124) bash_center 0 H Ha Hb)).
  split; [exact Hc |]. rewrite Hd. vm_compute. split; [discriminate | reflexivity].
Defined.

Lemma generator_is_drawn_by_idle_ticks_only_witness :
  (MoveShield ZONE_LEFT <> Tick
   /\ rngState (step fresh_engine (MoveShield ZONE_LEFT)) = rngState fresh_engine)
  /\ (negb (playerAlive (state vulnerable_engine))
      || truthy (bossCurrentAttack (state vulnerable_engine))
      || bossVulnerable (state vulnerable_engine) = true
      /\ rngState (tick vulnerable_engine) = rngState vulnerable_engine).
Proof.
  assert (Hc : MoveShield ZONE_LEFT <> Tick) by discriminate.
  assert (Hv : negb (playerAlive (state vulnerable_engine))
               || truthy (bossCurrentAttack (state vulnerable_engine))
               || bossVulnerable (state vulnerable_engine) = true)
    by (vm_compute; reflexivity).
  split; (split; [assumption |]).
  - exact (proj1 (generator_is_drawn_by_idle_ticks_only fresh_engine) _ Hc).
  - exact (proj1 (proj2 (generator_is_drawn_by_idle_ticks_only vulnerable_engine)) Hv).
Defined.

Lemma counters_move_by_at_most_one_witness :
  reachable striking_engine
  /\ bossHP (state striking_engine) = 10
  /\ damageDealt (state striking_engine) = 0
  /\ damageDealt (state (step striking_engine Tick)) = 1
  /\ bossHP (state (step striking_engine Tick))
     = bossHP (state striking_engine)
       - (damageDealt (state (step striking_engine Tick))
          - damageDealt (state striking_engine)).
Proof.
  assert (H : reachable striking_engine)
    by (apply reachable_run; apply reachable_run, reachable_new).
  assert (Hh : bossHP (state striking_engine) = 10) by (vm_compute; reflexivity).
  assert (Hd : damageDealt (state striking_engine) = 0) by (vm_compute; reflexivity).
  split; [exact H |]. split; [exact Hh |]. split; [exact Hd |].
  split; [vm_compute; reflexivity |].
  pose proof (counters_move_by_at_most_one striking_engine Tick H) as Hc.
  cbv zeta in Hc. destruct Hc as (_ & _ & _ & _ & Hc & _).
  apply Hc; [rewrite Hh | rewrite Hd]; lia.
Defined.

Lemma input_log_is_chronological_witness :
  reachable parried_engine
  /\ map ev_frame (getInputLog parried_engine) = [60]
  /\ StronglySorted Z.le (map ev_frame (getInputLog parried_engine)).
Proof.
  assert (H : reachable parried_engine) by apply reachable_run, reachable_new.
  split; [exact H |]. split; [vm_compute; reflexivity |].
  exact (proj1 (input_log_is_chronological parried_engine H)).
Defined.

Lemma forced_attack_starts_on_next_tick_witness :
  bossCurrentAttack
    (state (tick (forceAttack "flail_sweep" (constructor 0 42 10 PRACTICE))))
  = Some flail_sweep
  /\ rngState (tick (forceAttack "flail_sweep" (constructor 0 42 10 PRACTICE)))
     = rngState (constructor 0 42 10 PRACTICE).
Proof.
  pose proof (forced_attack_starts_on_next_tick
                (constructor 0 42 10 PRACTICE) "flail_sweep" "flail_sweep" []
                flail_sweep eq_refl eq_refl eq_refl eq_refl eq_refl eq_refl) as H.
  cbv zeta in H.
  split; [exact (proj1 H) | exact (proj2 (proj2 (proj2 (proj2 H))))].
Defined.

Lemma strike_lands_on_the_tenth_frame_witness :
  playerAlive (state vulnerable_engine) = true
  /\ bossVulnerable (state vulnerable_engine) = true
  /\ bossHP (state (ticks 10 (playerAttack vulnerable_engine)))
     = bossHP (state vulnerable_engine) - 1.
Proof.
  assert (Ha : playerAlive (state vulnerable_engine) = true)
    by (vm_compute; reflexivity).
  assert (Hv : bossVulnerable (state vulnerable_engine) = true)
    by (vm_compute; reflexivity).
  assert (Hb : bossCurrentAttack (state vulnerable_engine) = None)
    by (vm_compute; reflexivity).
  assert (Hp : playerAttacking (state vulnerable_engine) = false)
    by (vm_compute; reflexivity).
  assert (Hf : currentFrame (state vulnerable_engine) + 10
               - bossVulnerableFrame (state vulnerable_engine)
               < VULNERABILITY_DURATION_FRAMES)
    by (vm_compute; reflexivity).
  assert (Hh : bossHP (state vulnerable_engine) = 10) by (vm_compute; reflexivity).
  assert (Hd : damageDealt (state vulnerable_engine) = 0)
    by (vm_compute; reflexivity).
  split; [exact Ha |]. split; [exact Hv |].
  pose proof (strike_lands_on_the_tenth_frame vulnerable_engine Ha Hv Hb Hp Hf
                ltac:(rewrite Hh; lia) ltac:(rewrite Hd; lia)) as Hs.
  cbv zeta in Hs. destruct Hs as (_ & Hs & _). exact Hs.
Defined.

Lemma score_after_five_minutes_witness :
  mode (state dead_engine) = STANDARD
  /\ calculateScore 400000 1000 dead_engine = 980.
Proof.
  assert (Hm : mode (state dead_engine) = STANDARD) by (vm_compute; reflexivity).
  assert (Hr : runStartTime (state dead_engine) = 0) by (vm_compute; reflexivity).
  assert (Hp : perfectParries (state dead_engine) = 0) by (vm_compute; reflexivity).
  assert (Hd : playerAlive (state dead_engine) = false) by (vm_compute; reflexivity).
  split; [exact Hm |].
  rewrite (score_after_five_minutes 400000 1000 dead_engine Hm
             ltac:(rewrite Hr; lia) ltac:(rewrite Hr; lia) ltac:(lia)
             ltac:(rewrite Hp; lia) ltac:(rewrite Hp; lia)).
  rewrite Hp, Hd. reflexivity.
Defined.

Lemma update_loop_terminates_witness :
  exists n scene',
    update 10 50 sample_scene = Some scene'
    /\ combat scene' = ticks n (combat sample_scene)
    /\ Z.of_nat n <= 50 / 16
    /\ (0 <= accumulator scene' /\ accumulator scene' < FRAME_TIME_MS)%Q.
Proof.
  assert (Hr : isRunOver (combat sample_scene) = false) by (vm_compute; reflexivity).
  assert (H0 : (0 <= accumulator sample_scene)%Q) by (vm_compute; discriminate).
  assert (Hd : (0 <= 50)%Q) by (vm_compute; discriminate).
  assert (Hs : (accumulator sample_scene + 50 <= inject_Z 50)%Q)
    by (vm_compute; discriminate).
  assert (Hf : (Z.to_nat (50 / 16) < 10)%nat) by (vm_compute; lia).
  exact (update_loop_terminates 10 50 50 sample_scene eq_refl Hr H0 Hd Hs
           ltac:(lia) Hf).
Defined.

Lemma vulnerability_ends_after_180_frames_witness :
  reachable vulnerable_engine
  /\ playerAlive (state vulnerable_engine) = true
  /\ bossVulnerable (state vulnerable_engine) = true
  /\ bossVulnerable (state (ticks 179 vulnerable_engine)) = true
  /\ bossVulnerable (state (ticks 180 vulnerable_engine)) = false.
Proof.
  assert (H : reachable vulnerable_engine) by apply reachable_run, reachable_new.
  assert (Ha : playerAlive (state vulnerable_engine) = true)
    by (vm_compute; reflexivity).
  assert (Hv : bossVulnerable (state vulnerable_engine) = true)
    by (vm_compute; reflexivity).
  assert (Hn : Z.to_nat (bossVulnerableFrame (state vulnerable_engine)
                         + VULNERABILITY_DURATION_FRAMES
                         - currentFrame (state vulnerable_engine)) = 180%nat)
    by (vm_compute; reflexivity).
  pose proof (vulnerability_ends_after_180_frames vulnerable_engine H Ha Hv) as Hend.
  cbv zeta in Hend. rewrite Hn in Hend.
  split; [exact H |]. split; [exact Ha |]. split; [exact Hv |].
  split; [exact (proj1 (proj1 Hend 179%nat ltac:(lia)))
         | exact (proj1 (proj2 Hend))].
Defined.

Lemma impact_is_a_block_or_a_hit_witness :
  playerAlive (state threatened_engine) = true
  /\ bossCurrentAttack (state threatened_engine) = Some flail_sweep
  /\ bossAttackHitProcessed (state threatened_engine) = false
  /\ isBlocking flail_sweep = false
  /\ deathCount (state (tick threatened_engine))
     = deathCount (state threatened_engine) + 1.
Proof.
  assert (Ha : playerAlive (state threatened_engine) = true)
    by (vm_compute; reflexivity).
  assert (Hb : bossCurrentAttack (state threatened_engine) = Some flail_sweep)
    by (vm_compute; reflexivity).
  assert (Hc : bossAttackHitProcessed (state threatened_engine) = false)
    by (vm_compute; reflexivity).
  assert (Hd : currentFrame (state threatened_engine) + 1
               - bossAttackStartFrame (state threatened_engine)
               = windupFrames flail_sweep + IMPACT_DELAY_FRAMES)
    by (vm_compute; reflexivity).
  split; [exact Ha |]. split; [exact Hb |]. split; [exact Hc |].
  split; [reflexivity |].
  pose proof (impact_is_a_block_or_a_hit threatened_engine flail_sweep
                Ha Hb Hc Hd) as Hi.
  cbv zeta in Hi. destruct Hi as (_ & _ & Hi).
  exact (Hi eq_refl).
Defined.
